(** * The Collabordinator service of vitrivr-ng

    A shallow embedding of [CollabordinatorService] (the class extending
    [BehaviorSubject<string[]>] that mirrors the shared list of submitted
    items over a WebSocket), with the properties of its synchronisation
    logic and of its connection life cycle.

    Layout:
    - [JsArray]: the array primitives the service calls ([indexOf], [push],
      [splice], [slice]);
    - the service state, the rxjs objects it talks to, and a small state monad;
    - the methods of the class, translated one by one;
    - the events that drive the service and the reachable states;
    - [RefinementComponent], the component of the settings view;
    - the theorems. *)

From Stdlib Require Import ZArith.
From stdpp Require Import base list strings gmap.

Local Open Scope string_scope.
Local Open Scope list_scope.
Set Warnings "-clear-no-such-hyp".

(** ** Array primitives *)

Module JsArray.

(** [Array.prototype.indexOf]: the first index whose element is strictly
    equal to [v], or [-1]. *)
Fixpoint indexOf_from (fromIndex : Z) (a : list string) (v : string) : Z :=
  match a with
  | [] => (-1)%Z
  | x :: a' =>
      if bool_decide (x = v) then fromIndex
      else indexOf_from (fromIndex + 1)%Z a' v
  end.

Definition indexOf (a : list string) (v : string) : Z := indexOf_from 0 a v.

(** [Array.prototype.push] with one argument. *)
Definition push (a : list string) (v : string) : list string := a ++ [v].

(** [Array.prototype.splice(start, deleteCount)] without inserted items:
    the array after the call.  A negative [start] counts from the end, a
    [start] beyond the end is the end, and [deleteCount] is clamped to what
    is left. *)
Definition splice (a : list string) (start deleteCount : Z) : list string :=
  let len := Z.of_nat (length a) in
  let from := if (start <? 0)%Z then Z.max (len + start) 0 else Z.min start len in
  let count := Z.min (Z.max deleteCount 0) (len - from) in
  take (Z.to_nat from) a ++ drop (Z.to_nat (from + count)) a.

(** [Array.prototype.slice()] is a shallow copy; values are immutable here,
    so the copy is the list itself. *)
Definition slice (a : list string) : list string := a.

End JsArray.

(** ** Data model *)

(** [CollabordinatorMessage]: the message exchanged with the endpoint. *)
Record CollabordinatorMessage := Message {
  action : string;
  key : string;
  attribute : list string
}.

(** Modelled from the spec: the [Config] class is imported by the service
    but its file is not part of the sources at hand.  The service only calls
    [get<string>(path)], which resolves a key to a string or to [null]. *)
Abbreviation Config := (gmap string string).

Definition Config_get (c : Config) (path : string) : option string := c !! path.

(** The rxjs [WebSocketSubject] as far as the service uses it: the address it
    was created with, the messages handed to [next], whether [complete] was
    called, and whether the service's three handlers are subscribed. *)
Record WebSocketSubject := Socket {
  url : option string;
  outbox : list CollabordinatorMessage;
  isStopped : bool;
  observed : bool
}.

(** What the outside world can observe of the service, in order. *)
Inductive Effect :=
| ConsoleLog (line : string)
| Publish (value : list string)
| SocketCreate (ws : nat) (address : option string)
| SocketSubscribe (ws : nat)
| SocketNext (ws : nat) (msg : CollabordinatorMessage)
| SocketComplete (ws : nat).

(** The service object.  [_value] is the [BehaviorSubject]'s current value,
    [_webSocket] and [_config] are the two private fields ([None] is
    [undefined]); a [WebSocketSubject] reference is an index into [sockets]. *)
Record CollabordinatorService := Service {
  _value : list string;
  _webSocket : option nat;
  _config : option Config;
  sockets : list WebSocketSubject;
  effects : list Effect
}.

(** ** A state monad over the service object *)

Definition M (A : Type) : Type := CollabordinatorService → A * CollabordinatorService.

#[global] Instance M_ret : MRet M := λ A (a : A) s, (a, s).
#[global] Instance M_bind : MBind M := λ A B (f : A → M B) (m : M A) s,
  let (a, s') := m s in f a s'.

Definition exec {A} (m : M A) (s : CollabordinatorService) : CollabordinatorService :=
  snd (m s).
Definition eval {A} (m : M A) (s : CollabordinatorService) : A := fst (m s).

Definition emit (e : Effect) (s : CollabordinatorService) : CollabordinatorService :=
  Service (_value s) (_webSocket s) (_config s) (sockets s) (effects s ++ [e]).

(** [BehaviorSubject.getValue()] and [BehaviorSubject.next(v)] on [this]. *)
Definition getValue : M (list string) := λ s, (_value s, s).

Definition next (v : list string) : M unit := λ s,
  (tt, emit (Publish v)
         (Service v (_webSocket s) (_config s) (sockets s) (effects s))).

Definition console_log (line : string) : M unit := λ s, (tt, emit (ConsoleLog line) s).

Definition get_webSocket : M (option nat) := λ s, (_webSocket s, s).
Definition set_webSocket (ws : nat) : M unit := λ s,
  (tt, Service (_value s) (Some ws) (_config s) (sockets s) (effects s)).
Definition get_config : M (option Config) := λ s, (_config s, s).
Definition set_config (c : Config) : M unit := λ s,
  (tt, Service (_value s) (_webSocket s) (Some c) (sockets s) (effects s)).

Definition update_socket (ws : nat) (f : WebSocketSubject → WebSocketSubject) :
    CollabordinatorService → CollabordinatorService := λ s,
  Service (_value s) (_webSocket s) (_config s) (alter f ws (sockets s)) (effects s).

(** [webSocket(url)]: a new subject, not yet subscribed. *)
Definition webSocket (address : option string) : M nat := λ s,
  let ws := length (sockets s) in
  (ws, emit (SocketCreate ws address)
         (Service (_value s) (_webSocket s) (_config s)
                  (sockets s ++ [Socket address [] false false]) (effects s))).

(** What [next(msg)], [complete()] and [subscribe(...)] do to a socket. *)
Definition enqueue (msg : CollabordinatorMessage) (w : WebSocketSubject) : WebSocketSubject :=
  Socket (url w) (outbox w ++ [msg]) (isStopped w) (observed w).

Definition stop (w : WebSocketSubject) : WebSocketSubject :=
  Socket (url w) (outbox w) true (observed w).

Definition observe (w : WebSocketSubject) : WebSocketSubject :=
  Socket (url w) (outbox w) (isStopped w) true.

(** [ws.next(msg)], [ws.complete()] and [ws.subscribe(onMessage, onError, onComplete)]. *)
Definition ws_next (ws : nat) (msg : CollabordinatorMessage) : M unit := λ s,
  (tt, emit (SocketNext ws msg) (update_socket ws (enqueue msg) s)).

Definition ws_complete (ws : nat) : M unit := λ s,
  (tt, emit (SocketComplete ws) (update_socket ws stop s)).

Definition ws_subscribe (ws : nat) : M unit := λ s,
  (tt, emit (SocketSubscribe ws) (update_socket ws observe s)).

(** ** The methods of [CollabordinatorService] *)

Definition unavailable_line : string :=
  "Collabordinator service is currently not available.".
Definition error_line : string :=
  "Error occurred while communicating with Collabordinator web service".
Definition closed_line : string :=
  "Connection to Collabordinator web service was closed.".
Definition endpoint_key : string := "vbs.collabordinator".

(** [constructor]: [super([])], both fields undefined. *)
Definition init : CollabordinatorService := Service [] None None [] [].

Definition add (id : list string) : M unit :=
  ws ← get_webSocket;
  match ws with
  | Some ws => ws_next ws (Message "ADD" "vitrivr" id)
  | None => console_log unavailable_line
  end.

Definition remove (id : list string) : M unit :=
  ws ← get_webSocket;
  match ws with
  | Some ws => ws_next ws (Message "REMOVE" "vitrivr" id)
  | None => console_log unavailable_line
  end.

Definition clear : M unit :=
  ws ← get_webSocket;
  match ws with
  | Some ws => ws_next ws (Message "CLEAR" "vitrivr" [])
  | None => console_log unavailable_line
  end.

Definition available : M bool :=
  ws ← get_webSocket;
  mret (match ws with Some _ => true | None => false end).

(** The bodies of the two loops of [synchronize]. *)
Definition add_step (current : list string) (v : string) : list string :=
  if (JsArray.indexOf current v =? -1)%Z then JsArray.push current v else current.

Definition remove_step (current : list string) (v : string) : list string :=
  let index := JsArray.indexOf current v in
  if (index >? -1)%Z then JsArray.splice current index 1 else current.

Definition synchronize (msg : CollabordinatorMessage) : M unit :=
  value ← getValue;
  let current := JsArray.slice value in
  let current :=
    if String.eqb (action msg) "ADD" then foldl add_step current (attribute msg)
    else if String.eqb (action msg) "REMOVE" then foldl remove_step current (attribute msg)
    else if String.eqb (action msg) "CLEAR" then []
    else current in
  next current.

(** The error and completion handlers registered by [connect]. *)
Definition on_error : M unit := console_log error_line;; next [].
Definition on_complete : M unit := console_log closed_line;; next [].

Definition connect : M bool :=
  config ← get_config;
  match config with
  | None => mret false
  | Some config =>
      old ← get_webSocket;
      match old with
      | Some old => ws_complete old;; next []
      | None => mret tt
      end;;
      ws ← webSocket (Config_get config endpoint_key);
      set_webSocket ws;;
      ws_subscribe ws;;
      mret true
  end.

(** The subscription of the constructor: configurations without an endpoint
    address are filtered out, the others are stored and trigger [connect]. *)
Definition on_config (c : Config) : M unit :=
  match Config_get c endpoint_key with
  | Some _ => set_config c;; connect;; mret tt
  | None => mret tt
  end.

(** ** Events and reachable states *)

(** Everything that can happen to the service after its construction: the
    configuration service emits, a consumer calls a public method, or one of
    the sockets the service subscribed to delivers a message, an error or its
    completion. *)
Inductive Event :=
| ConfigEmits (c : Config)
| CallAdd (id : list string)
| CallRemove (id : list string)
| CallClear
| CallConnect
| CallAvailable
| SocketMessage (ws : nat) (msg : CollabordinatorMessage)
| SocketError (ws : nat)
| SocketClosed (ws : nat).

Definition subscribed (ws : nat) (s : CollabordinatorService) : bool :=
  match sockets s !! ws with
  | Some w => observed w
  | None => false
  end.

(** A socket only runs the handlers of its subscribers.  The handlers close
    over [this] alone, so a socket that was replaced by a later [connect]
    still reaches the service. *)
Definition when_subscribed (ws : nat) (handler : M unit) : M unit := λ s,
  if subscribed ws s then handler s else (tt, s).

Definition handle (e : Event) : M unit :=
  match e with
  | ConfigEmits c => on_config c
  | CallAdd id => add id
  | CallRemove id => remove id
  | CallClear => clear
  | CallConnect => connect;; mret tt
  | CallAvailable => available;; mret tt
  | SocketMessage ws msg => when_subscribed ws (synchronize msg)
  | SocketError ws => when_subscribed ws on_error
  | SocketClosed ws => when_subscribed ws on_complete
  end.

Definition step (s : CollabordinatorService) (e : Event) : CollabordinatorService :=
  exec (handle e) s.

Definition run (s : CollabordinatorService) (es : list Event) : CollabordinatorService :=
  foldl step s es.

Definition reachable (s : CollabordinatorService) : Prop := ∃ es, s = run init es.

Definition is_message (e : Event) : bool :=
  match e with SocketMessage _ _ => true | _ => false end.

(** ** Reference descriptions used in the statements *)

(** The elements of [l], each once, in the order of their first occurrence. *)
Fixpoint first_occurrences (l : list string) : list string :=
  match l with
  | [] => []
  | x :: l' => x :: filter (λ y, y ≠ x) (first_occurrences l')
  end.

(** [removes_first v l l']: [l'] is [l] without the first occurrence of [v],
    and [l] itself when [v] does not occur. *)
Inductive removes_first (v : string) : list string → list string → Prop :=
| removes_absent l : v ∉ l → removes_first v l l
| removes_present l1 l2 : v ∉ l1 → removes_first v (l1 ++ v :: l2) (l1 ++ l2).

(** [removes_each vs l l']: the identifiers [vs] are treated one after the
    other, from left to right. *)
Inductive removes_each : list string → list string → list string → Prop :=
| removes_nil l : removes_each [] l l
| removes_cons v vs l l' l'' :
    removes_first v l l' → removes_each vs l' l'' → removes_each (v :: vs) l l''.

(** The published set is only reset to empty by these events in these states. *)
Definition resets (s : CollabordinatorService) (e : Event) : bool :=
  match e with
  | ConfigEmits c =>
      match Config_get c endpoint_key, _webSocket s with
      | Some _, Some _ => true
      | _, _ => false
      end
  | CallConnect =>
      match _config s, _webSocket s with
      | Some _, Some _ => true
      | _, _ => false
      end
  | SocketError ws | SocketClosed ws => subscribed ws s
  | _ => false
  end.

(** ** Vocabulary of the statements *)

(** The shape the bodies of [add], [remove] and [clear] share. *)
Definition send_or_report (msg : CollabordinatorMessage) : M unit :=
  ws ← get_webSocket;
  match ws with
  | Some ws => ws_next ws msg
  | None => console_log unavailable_line
  end.

(** The messages of a list applied in order. *)
Definition deliver (s : CollabordinatorService) (msgs : list CollabordinatorMessage) :
    CollabordinatorService :=
  foldl (λ s msg, exec (synchronize msg) s) s msgs.

(** A call that leaves the published set and both private fields alone, and
    either hands [msg] to the current socket or, without a socket, writes the
    one line to the console. *)
Definition only_sends (call : M unit) (msg : CollabordinatorMessage)
    (s : CollabordinatorService) : Prop :=
  let s' := exec call s in
  _value s' = _value s ∧ _webSocket s' = _webSocket s ∧ _config s' = _config s
  ∧ match _webSocket s with
    | Some ws =>
        effects s' = effects s ++ [SocketNext ws msg]
        ∧ sockets s' = alter (enqueue msg) ws (sockets s)
    | None =>
        effects s' = effects s ++ [ConsoleLog unavailable_line]
        ∧ sockets s' = sockets s
    end.

(** What holds of every reachable state: the socket reference points into
    the sockets created so far, there is a reference as soon as a socket was
    created, a reference implies a configuration, the stored configuration
    has an endpoint address, every socket created is subscribed, and the
    published set has no duplicates. *)
Record invariant (s : CollabordinatorService) : Prop := Invariant {
  inv_reference : ∀ ws, _webSocket s = Some ws → ws < length (sockets s);
  inv_created : ∀ ws, ws < length (sockets s) → is_Some (_webSocket s);
  inv_config : is_Some (_webSocket s) → is_Some (_config s);
  inv_address : ∀ c, _config s = Some c → is_Some (Config_get c endpoint_key);
  inv_observed : ∀ ws w, sockets s !! ws = Some w → observed w = true;
  inv_NoDup : NoDup (_value s)
}.

(** A request as the service builds it: the fixed key, one of the three
    actions, and no identifiers with [CLEAR]. *)
Definition well_formed_request (msg : CollabordinatorMessage) : Prop :=
  key msg = "vitrivr"
  ∧ (action msg = "ADD" ∨ action msg = "REMOVE"
     ∨ (action msg = "CLEAR" ∧ attribute msg = [])).

(** More of what holds of every reachable state: the socket reference is the
    socket created last, a socket is not completed exactly when it is the
    referenced one, the referenced socket was created for the address of the
    stored configuration, a stored configuration comes with a socket, and
    every request handed to a socket was well formed. *)
Record connection_invariant (s : CollabordinatorService) : Prop := ConnectionInvariant {
  cinv_latest : ∀ cur, _webSocket s = Some cur → S cur = length (sockets s);
  cinv_open : ∀ ws w, sockets s !! ws = Some w →
                      (isStopped w = false ↔ _webSocket s = Some ws);
  cinv_url : ∀ cur w, _webSocket s = Some cur → sockets s !! cur = Some w →
                      ∃ c, _config s = Some c ∧ url w = Config_get c endpoint_key;
  cinv_configured : is_Some (_config s) → is_Some (_webSocket s);
  cinv_requests : ∀ ws msg, SocketNext ws msg ∈ effects s → well_formed_request msg
}.

(** The calls of [add], [remove] and [clear]. *)
Definition is_mutation_call (e : Event) : bool :=
  match e with
  | CallAdd _ | CallRemove _ | CallClear => true
  | _ => false
  end.

(** ** The refinement component *)

(** [RefinementComponent] shows the media types and the feature categories
    of the current results and passes the user's changes on.  The query
    service, its results container and the change detector are other
    classes: their state is carried along as far as the component reads it,
    and the calls the component makes on them are recorded in order. *)

Section RefinementModel.
Variable Number : Type.

(** The observables the two getters can return. *)
Inductive ObservableRef :=
| EmptyObservable
| FeaturesOf (container : nat)
| MediatypesOf (container : nat).

(** The field [_queryServiceSubscription]: not yet assigned, [null], or a
    subscription. *)
Inductive SubscriptionRef :=
| Undefined
| Null
| Subscription (n : nat).

(** The calls on the collaborators: [_cdr.markForCheck()],
    [results.toggleMediatype(name, checked)], [feature.weight = value],
    [results.rerank()]. *)
Inductive ViewEffect :=
| MarkForCheck
| ToggleMediatype (container : nat) (name : string) (checked : bool)
| SetWeight (feature : nat) (value : Number)
| Rerank (container : nat).

(** The component, with [_queryService.results] ([None] is [undefined]) and
    the subscriptions taken on [_queryService.observable] ([true] while a
    subscription was not unsubscribed). *)
Record RefinementComponent := Refinement {
  _features : ObservableRef;
  _mediatypes : ObservableRef;
  _queryServiceSubscription : SubscriptionRef;
  results : option nat;
  subscriptions : list bool;
  calls : list ViewEffect
}.

(** A method either returns, or throws the [TypeError] of a property access
    on [undefined] or [null]. *)
Inductive Outcome :=
| Returns (c : RefinementComponent)
| TypeError.

(** The component after its constructor. *)
Definition created : RefinementComponent :=
  Refinement EmptyObservable EmptyObservable Undefined None [] [].

Definition markForCheck (c : RefinementComponent) : RefinementComponent :=
  Refinement (_features c) (_mediatypes c) (_queryServiceSubscription c)
             (results c) (subscriptions c) (calls c ++ [MarkForCheck]).

Definition onQueryStartEnd (msg : string) (c : RefinementComponent) : Outcome :=
  if String.eqb msg "STARTED" then
    match results c with
    | Some container =>
        Returns (markForCheck
                   (Refinement (FeaturesOf container) (MediatypesOf container)
                               (_queryServiceSubscription c)
                               (results c) (subscriptions c) (calls c)))
    | None => TypeError
    end
  else if String.eqb msg "CLEAR" then
    Returns (markForCheck
               (Refinement EmptyObservable EmptyObservable
                           (_queryServiceSubscription c)
                           (results c) (subscriptions c) (calls c)))
  else Returns (markForCheck c).

Definition ngOnInit (c : RefinementComponent) : RefinementComponent :=
  Refinement (_features c) (_mediatypes c)
             (Subscription (length (subscriptions c)))
             (results c) (subscriptions c ++ [true]) (calls c).

Definition ngOnDestroy (c : RefinementComponent) : Outcome :=
  match _queryServiceSubscription c with
  | Subscription n =>
      Returns (Refinement (_features c) (_mediatypes c) Null
                          (results c) (<[n := false]> (subscriptions c)) (calls c))
  | Undefined | Null => TypeError
  end.

(** What the subscription [n] of [ngOnInit] does with a message of the query
    service: the filter, then [onQueryStartEnd]. *)
Definition queryChanged (n : nat) (msg : string) (c : RefinementComponent) : Outcome :=
  match subscriptions c !! n with
  | Some true =>
      if (JsArray.indexOf ["STARTED"; "CLEAR"] msg >? -1)%Z
      then onQueryStartEnd msg c
      else Returns c
  | _ => Returns c
  end.

Definition onFilterChanged (name : string) (checked : bool)
    (c : RefinementComponent) : RefinementComponent :=
  match results c with
  | Some container =>
      Refinement (_features c) (_mediatypes c) (_queryServiceSubscription c)
                 (results c) (subscriptions c)
                 (calls c ++ [ToggleMediatype container name checked])
  | None => c
  end.

Definition onValueChanged (feature : nat) (value : Number)
    (c : RefinementComponent) : RefinementComponent :=
  match results c with
  | Some container =>
      Refinement (_features c) (_mediatypes c) (_queryServiceSubscription c)
                 (results c) (subscriptions c)
                 (calls c ++ [SetWeight feature value; Rerank container])
  | None => c
  end.

Definition mediatypes (c : RefinementComponent) : ObservableRef := _mediatypes c.
Definition features (c : RefinementComponent) : ObservableRef := _features c.

(** What can happen to the component: the query service replaces its
    results container, the framework or a consumer calls a method, or a
    subscription delivers a message. *)
Inductive ViewEvent :=
| ResultsBecome (container : option nat)
| Init
| Destroy
| QueryChanged (n : nat) (msg : string)
| QueryStartEnd (msg : string)
| FilterChanged (name : string) (checked : bool)
| ValueChanged (feature : nat) (value : Number).

(** Both methods that can throw do so in their first statement, so a thrown
    error leaves the component as it was. *)
Definition settle (c : RefinementComponent) (o : Outcome) : RefinementComponent :=
  match o with
  | Returns c' => c'
  | TypeError => c
  end.

(** A message on the subscription [n].  When the handler throws, rxjs
    unsubscribes the subscriber whose handler threw before it passes the
    error on. *)
Definition deliver_change (n : nat) (msg : string) (c : RefinementComponent) :
    RefinementComponent :=
  match queryChanged n msg c with
  | Returns c' => c'
  | TypeError =>
      Refinement (_features c) (_mediatypes c) (_queryServiceSubscription c)
                 (results c) (<[n := false]> (subscriptions c)) (calls c)
  end.

Definition view_step (c : RefinementComponent) (e : ViewEvent) : RefinementComponent :=
  match e with
  | ResultsBecome container =>
      Refinement (_features c) (_mediatypes c) (_queryServiceSubscription c)
                 container (subscriptions c) (calls c)
  | Init => ngOnInit c
  | Destroy => settle c (ngOnDestroy c)
  | QueryChanged n msg => deliver_change n msg c
  | QueryStartEnd msg => settle c (onQueryStartEnd msg c)
  | FilterChanged name checked => onFilterChanged name checked c
  | ValueChanged feature value => onValueChanged feature value c
  end.

Definition view_run (c : RefinementComponent) (es : list ViewEvent) : RefinementComponent :=
  foldl view_step c es.

(** The two observables are both empty or both of one results container. *)
Definition observables_agree (c : RefinementComponent) : Prop :=
  (features c = EmptyObservable ∧ mediatypes c = EmptyObservable)
  ∨ ∃ container, features c = FeaturesOf container ∧ mediatypes c = MediatypesOf container.

End RefinementModel.

Arguments MarkForCheck {Number}.
Arguments ToggleMediatype {Number} _ _ _.
Arguments Rerank {Number} _.
Arguments SetWeight {Number} _ _.
Arguments Refinement {Number} _ _ _ _ _ _.
Arguments _features {Number} _.
Arguments _mediatypes {Number} _.
Arguments _queryServiceSubscription {Number} _.
Arguments results {Number} _.
Arguments subscriptions {Number} _.
Arguments calls {Number} _.
Arguments Returns {Number} _.
Arguments TypeError {Number}.
Arguments created {Number}.
Arguments markForCheck {Number} _.
Arguments onQueryStartEnd {Number} _ _.
Arguments ngOnInit {Number} _.
Arguments ngOnDestroy {Number} _.
Arguments queryChanged {Number} _ _ _.
Arguments onFilterChanged {Number} _ _ _.
Arguments onValueChanged {Number} _ _ _.
Arguments mediatypes {Number} _.
Arguments features {Number} _.
Arguments ResultsBecome {Number} _.
Arguments Init {Number}.
Arguments Destroy {Number}.
Arguments QueryChanged {Number} _ _.
Arguments QueryStartEnd {Number} _.
Arguments FilterChanged {Number} _ _.
Arguments ValueChanged {Number} _ _.
Arguments settle {Number} _ _.
Arguments deliver_change {Number} _ _ _.
Arguments view_step {Number} _ _.
Arguments view_run {Number} _ _.
Arguments observables_agree {Number} _.

(** ** Concrete runs *)

Definition example_config : Config := {[ endpoint_key := "ws://host/collab" ]}.

(** The service after the configuration arrived and the endpoint sent one
    [ADD] of the identifier [a]. *)
Definition connected_with_a : CollabordinatorService :=
  run init [ConfigEmits example_config; SocketMessage 0 (Message "ADD" "vitrivr" ["a"])].

Ltac unfold_service :=
  unfold run, step, handle, when_subscribed, on_config, on_error, on_complete,
    connect, add, remove, clear, available, synchronize, exec, eval,
    ws_next, ws_complete, ws_subscribe, webSocket, console_log, next, getValue,
    get_webSocket, set_webSocket, get_config, set_config, update_socket, emit,
    mbind, M_bind, mret, M_ret in *.

(** * Properties *)

(** ** The array primitives *)

Section ArrayFacts.
Import JsArray.
Implicit Types (a l : list string) (v x : string) (i : Z).

Lemma indexOf_from_absent i a v : v ∉ a → indexOf_from i a v = (-1)%Z.
Proof.
  revert i. induction a as [|x a IH]; intros i Hv; simpl; [done|].
  apply not_elem_of_cons in Hv as [Hne Hv].
  rewrite bool_decide_eq_false_2 by congruence. by apply IH.
Qed.

Lemma indexOf_from_present i a v :
  v ∈ a →
  ∃ l1 l2, a = l1 ++ v :: l2 ∧ (v ∉ l1) ∧ indexOf_from i a v = (i + Z.of_nat (length l1))%Z.
Proof.
  revert i. induction a as [|x a IH]; intros i Hv.
  { by apply elem_of_nil in Hv. }
  simpl. destruct (decide (x = v)) as [->|Hne].
  - exists [], a. rewrite bool_decide_eq_true_2 by done.
    split_and!; [done|apply not_elem_of_nil|simpl; lia].
  - rewrite bool_decide_eq_false_2 by done.
    apply elem_of_cons in Hv as [?|Hv]; [congruence|].
    destruct (IH (i + 1)%Z Hv) as (l1 & l2 & -> & Hl1 & ->).
    exists (x :: l1), l2. split_and!; [done| |simpl; lia].
    apply not_elem_of_cons. split; [congruence|done].
Qed.

Lemma indexOf_absent a v : v ∉ a → indexOf a v = (-1)%Z.
Proof. apply indexOf_from_absent. Qed.

Lemma indexOf_present a v :
  v ∈ a → ∃ l1 l2, a = l1 ++ v :: l2 ∧ (v ∉ l1) ∧ indexOf a v = Z.of_nat (length l1).
Proof.
  intros Hv. destruct (indexOf_from_present 0 a v Hv) as (l1 & l2 & ? & ? & E).
  exists l1, l2. by rewrite <- (Z.add_0_l (Z.of_nat (length l1))).
Qed.

Lemma splice_one l1 v l2 :
  splice (l1 ++ v :: l2) (Z.of_nat (length l1)) 1 = l1 ++ l2.
Proof.
  unfold splice. rewrite length_app. simpl length.
  destruct (Z.ltb_spec (Z.of_nat (length l1)) 0) as [?|_]; [lia|].
  rewrite Z.min_l by lia. rewrite Z.max_l by lia. rewrite Z.min_l by lia.
  rewrite Nat2Z.id.
  replace (Z.to_nat (Z.of_nat (length l1) + 1)) with (length l1 + 1) by lia.
  rewrite take_app_length.
  rewrite drop_app_add'; [|done]. done.
Qed.

End ArrayFacts.

(** ** The two loops of [synchronize] *)

Section Loops.
Implicit Types (current l : list string) (v x : string) (ids : list string).

Lemma add_step_present current v : v ∈ current → add_step current v = current.
Proof.
  intros Hv. unfold add_step.
  destruct (indexOf_present current v Hv) as (l1 & l2 & _ & _ & ->).
  destruct (Z.eqb_spec (Z.of_nat (length l1)) (-1)); [lia|done].
Qed.

Lemma add_step_absent current v : v ∉ current → add_step current v = current ++ [v].
Proof. intros Hv. unfold add_step. by rewrite indexOf_absent. Qed.

Lemma remove_step_absent current v : v ∉ current → remove_step current v = current.
Proof. intros Hv. unfold remove_step. by rewrite indexOf_absent. Qed.

Lemma first_split_unique l1 l2 k1 k2 v :
  v ∉ l1 → v ∉ k1 → l1 ++ v :: l2 = k1 ++ v :: k2 → l1 = k1 ∧ l2 = k2.
Proof.
  revert k1. induction l1 as [|y l1 IH]; intros [|z k1] Hl Hk E; simplify_eq/=.
  - done.
  - exfalso. apply Hk. by left.
  - exfalso. apply Hl. by left.
  - apply not_elem_of_cons in Hl as [_ Hl]. apply not_elem_of_cons in Hk as [_ Hk].
    destruct (IH k1 Hl Hk) as [-> ->]; done.
Qed.

Lemma removes_first_functional v l l' l'' :
  removes_first v l l' → removes_first v l l'' → l' = l''.
Proof.
  intros H1 H2. destruct H1 as [l Hl|l1 l2 Hl1].
  - inversion H2 as [|k1 k2 Hk1 E]; [done|]. subst.
    exfalso. apply Hl, elem_of_app. right. by left.
  - inversion H2 as [? Hk E|k1 k2 Hk1 E]; subst.
    + exfalso. apply Hk, elem_of_app. right. by left.
    + symmetry in E. by destruct (first_split_unique _ _ _ _ _ Hl1 Hk1 E) as [-> ->].
Qed.

Lemma remove_step_present l1 v l2 :
  v ∉ l1 → remove_step (l1 ++ v :: l2) v = l1 ++ l2.
Proof.
  intros Hv. unfold remove_step.
  destruct (indexOf_present (l1 ++ v :: l2) v) as (k1 & k2 & E & Hk & ->).
  { apply elem_of_app. right. by left. }
  destruct (first_split_unique _ _ _ _ _ Hv Hk E) as [<- _].
  destruct (Z.gtb_spec (Z.of_nat (length l1)) (-1)); [|lia].
  apply splice_one.
Qed.

Lemma remove_step_first current v : removes_first v current (remove_step current v).
Proof.
  destruct (decide (v ∈ current)) as [Hv|Hv].
  - destruct (indexOf_present current v Hv) as (l1 & l2 & -> & Hl1 & _).
    rewrite remove_step_present by done. by constructor.
  - rewrite remove_step_absent by done. by constructor.
Qed.

Lemma remove_loop_each ids current :
  removes_each ids current (foldl remove_step current ids).
Proof.
  revert current. induction ids as [|v ids IH]; intros current; simpl.
  - constructor.
  - econstructor; [apply remove_step_first|apply IH].
Qed.

Lemma remove_loop_absent ids current :
  (∀ v, v ∈ ids → v ∉ current) → foldl remove_step current ids = current.
Proof.
  induction ids as [|v ids IH]; intros Habs; simpl; [done|].
  rewrite remove_step_absent by (apply Habs; by left).
  apply IH. intros x Hx. apply Habs. by right.
Qed.

Lemma elem_of_first_occurrences l x : x ∈ first_occurrences l ↔ x ∈ l.
Proof.
  induction l as [|y l IH]; simpl; [done|].
  rewrite !elem_of_cons, list_elem_of_filter, IH.
  destruct (decide (x = y)); naive_solver.
Qed.

Lemma NoDup_first_occurrences l : NoDup (first_occurrences l).
Proof.
  induction l as [|y l IH]; simpl; [constructor|].
  apply NoDup_cons. split; [|by apply NoDup_filter].
  rewrite list_elem_of_filter. naive_solver.
Qed.

Lemma first_occurrences_sublist l : first_occurrences l `sublist_of` l.
Proof.
  induction l as [|y l IH]; simpl; [done|].
  apply sublist_skip. etrans; [apply sublist_filter|done].
Qed.

Lemma first_occurrences_filter (P : string → Prop) `{!∀ x, Decision (P x)} l :
  first_occurrences (filter P l) = filter P (first_occurrences l).
Proof.
  induction l as [|y l IH]; simpl; [done|].
  destruct (decide (P y)) as [Hy|Hy].
  - rewrite !filter_cons_True by done. simpl. f_equal.
    rewrite IH, !list_filter_filter. apply list_filter_iff. naive_solver.
  - rewrite !filter_cons_False by done. rewrite IH, list_filter_filter.
    apply list_filter_iff. intros x. split; [|naive_solver].
    intros Hx. split; [done|]. by intros ->.
Qed.

Lemma add_loop_first_occurrences ids current :
  foldl add_step current ids =
  current ++ first_occurrences (filter (λ v, v ∉ current) ids).
Proof.
  revert current. induction ids as [|v ids IH]; intros current; simpl.
  - by rewrite app_nil_r.
  - destruct (decide (v ∈ current)) as [Hv|Hv].
    + rewrite add_step_present, filter_cons_False by naive_solver. apply IH.
    + rewrite add_step_absent, filter_cons_True by done.
      rewrite IH, <- app_assoc. simpl. do 2 f_equal.
      rewrite <- first_occurrences_filter, list_filter_filter. f_equal.
      apply list_filter_iff. intros x.
      rewrite elem_of_app, list_elem_of_singleton. naive_solver.
Qed.

Lemma filter_none (P : string → Prop) `{!∀ x, Decision (P x)} l :
  (∀ x, x ∈ l → ¬ P x) → filter P l = [].
Proof.
  induction l as [|y l IH]; intros Hl; [done|].
  rewrite filter_cons_False by (apply Hl; by left).
  apply IH. intros x Hx. apply Hl. by right.
Qed.

Lemma add_loop_again ids current :
  foldl add_step (foldl add_step current ids) ids = foldl add_step current ids.
Proof.
  rewrite (add_loop_first_occurrences ids (foldl add_step current ids)).
  rewrite filter_none; [by rewrite app_nil_r|].
  intros x Hx Hnot. apply Hnot.
  rewrite add_loop_first_occurrences, elem_of_app, elem_of_first_occurrences,
    list_elem_of_filter.
  destruct (decide (x ∈ current)); naive_solver.
Qed.

Lemma add_step_NoDup current v : NoDup current → NoDup (add_step current v).
Proof.
  intros Hnd. destruct (decide (v ∈ current)) as [Hv|Hv].
  - by rewrite add_step_present.
  - rewrite add_step_absent by done. apply NoDup_app. split_and!; [done| |].
    + intros x Hx ->%list_elem_of_singleton. done.
    + apply NoDup_singleton.
Qed.

Lemma remove_step_NoDup current v : NoDup current → NoDup (remove_step current v).
Proof.
  intros Hnd. destruct (remove_step_first current v) as [l _|l1 l2 _]; [done|].
  apply NoDup_app in Hnd as (H1 & H12 & H2%NoDup_cons).
  apply NoDup_app. split_and!; [done| |naive_solver].
  intros x Hx Hx2. apply (H12 x Hx). by right.
Qed.

Lemma foldl_NoDup (f : list string → string → list string) ids current :
  (∀ l v, NoDup l → NoDup (f l v)) → NoDup current → NoDup (foldl f current ids).
Proof.
  intros Hf. revert current. induction ids as [|v ids IH]; intros current Hnd; simpl; auto.
Qed.

End Loops.

(** ** Running monadic code *)

Lemma exec_bind {A B} (m : M A) (f : A → M B) s :
  exec (m ≫= f) s = exec (f (eval m s)) (exec m s).
Proof. unfold exec, eval, mbind, M_bind. by destruct (m s). Qed.

Lemma eval_bind {A B} (m : M A) (f : A → M B) s :
  eval (m ≫= f) s = eval (f (eval m s)) (exec m s).
Proof. unfold exec, eval, mbind, M_bind. by destruct (m s). Qed.

Lemma exec_ret {A} (a : A) s : exec (mret a) s = s.
Proof. done. Qed.

(** ** Invariants of the reachable states *)

Lemma synchronize_value msg s :
  _value (exec (synchronize msg) s) =
    if String.eqb (action msg) "ADD" then foldl add_step (_value s) (attribute msg)
    else if String.eqb (action msg) "REMOVE" then foldl remove_step (_value s) (attribute msg)
    else if String.eqb (action msg) "CLEAR" then []
    else _value s.
Proof. reflexivity. Qed.

Lemma synchronize_frame msg s :
  let s' := exec (synchronize msg) s in
  _webSocket s' = _webSocket s ∧ _config s' = _config s ∧ sockets s' = sockets s
  ∧ effects s' = effects s ++ [Publish (_value s')].
Proof. done. Qed.

Lemma synchronize_preserves_NoDup msg s :
  NoDup (_value s) → NoDup (_value (exec (synchronize msg) s)).
Proof.
  intros Hnd. rewrite synchronize_value.
  repeat case_match; auto using foldl_NoDup, add_step_NoDup, remove_step_NoDup, NoDup_nil_2.
Qed.

Lemma invariant_init : invariant init.
Proof.
  split; simpl; try done; [intros; lia|constructor].
Qed.

Lemma alter_snoc {A} (f : A → A) (l : list A) (x : A) :
  alter f (length l) (l ++ [x]) = l ++ [f x].
Proof. rewrite <- (Nat.add_0_r (length l)). by rewrite alter_app_r. Qed.

(** [connect] with a configuration at hand, written out. *)
Lemma connect_configured s c :
  _config s = Some c →
  connect s =
    (true,
     Service (match _webSocket s with Some _ => [] | None => _value s end)
             (Some (length (sockets s))) (Some c)
             (match _webSocket s with
              | Some old => alter stop old (sockets s)
              | None => sockets s
              end ++ [Socket (Config_get c endpoint_key) [] false true])
             (effects s ++
              match _webSocket s with
              | Some old => [SocketComplete old; Publish []]
              | None => []
              end ++
              [SocketCreate (length (sockets s)) (Config_get c endpoint_key);
               SocketSubscribe (length (sockets s))])).
Proof.
  intros Hc. unfold_service. rewrite Hc.
  destruct (_webSocket s) as [old|]; simpl.
  - rewrite alter_snoc, length_alter, Hc. simpl. by rewrite <- !app_assoc.
  - rewrite alter_snoc, Hc. simpl. by rewrite <- !app_assoc.
Qed.

Lemma connect_unconfigured s : _config s = None → connect s = (false, s).
Proof. intros Hc. unfold_service. by rewrite Hc. Qed.

Lemma connect_preserves_invariant s : invariant s → invariant (exec connect s).
Proof.
  intros Hinv. pose proof Hinv as [Href Hcre Hcfg Haddr Hobs Hnd].
  destruct (_config s) as [c|] eqn:Hc.
  - unfold exec. rewrite (connect_configured s c Hc). simpl.
    split; simpl.
    + intros ws [= <-]. rewrite length_app. simpl.
      destruct (_webSocket s); [rewrite length_alter|]; lia.
    + by eauto.
    + by eauto.
    + intros c' [= <-]. by apply Haddr.
    + intros ws w Hw. apply lookup_snoc_Some in Hw as [[_ Hw]|[_ <-]]; [|done].
      destruct (_webSocket s) as [old|]; [|by eauto].
      rewrite list_lookup_alter in Hw. case_decide; [|by eauto].
      subst. destruct (sockets s !! ws) as [w0|] eqn:E; simplify_eq/=. by eauto.
    + destruct (_webSocket s); [constructor|done].
  - unfold_service. by rewrite Hc.
Qed.

Lemma send_or_report_exec msg s :
  exec (send_or_report msg) s =
    match _webSocket s with
    | Some ws =>
        Service (_value s) (_webSocket s) (_config s)
                (alter (enqueue msg) ws (sockets s)) (effects s ++ [SocketNext ws msg])
    | None =>
        Service (_value s) (_webSocket s) (_config s) (sockets s)
                (effects s ++ [ConsoleLog unavailable_line])
    end.
Proof.
  unfold send_or_report. unfold_service.
  destruct (_webSocket s) eqn:E; simpl; by rewrite ?E.
Qed.

Lemma add_sends id : add id = send_or_report (Message "ADD" "vitrivr" id).
Proof. reflexivity. Qed.

Lemma remove_sends id : remove id = send_or_report (Message "REMOVE" "vitrivr" id).
Proof. reflexivity. Qed.

Lemma clear_sends : clear = send_or_report (Message "CLEAR" "vitrivr" []).
Proof. reflexivity. Qed.

Lemma invariant_frame s s' :
  _webSocket s' = _webSocket s → _config s' = _config s →
  length (sockets s') = length (sockets s) →
  (∀ ws w', sockets s' !! ws = Some w' →
            ∃ w, sockets s !! ws = Some w ∧ observed w' = observed w) →
  NoDup (_value s') →
  invariant s → invariant s'.
Proof.
  intros Hws Hc Hlen Hobs Hnd [Href Hcre Hcfg Haddr Hobs' _].
  split; rewrite ?Hws, ?Hc, ?Hlen; try done.
  intros ws w' Hw'. destruct (Hobs ws w' Hw') as (w & Hw & ->). by eauto.
Qed.

Lemma send_preserves_invariant msg s :
  invariant s → invariant (exec (send_or_report msg) s).
Proof.
  intros Hinv. rewrite send_or_report_exec.
  destruct (_webSocket s) as [ws|] eqn:Hws;
    apply (invariant_frame s); simpl; try done; try apply Hinv; eauto.
  - apply length_alter.
  - intros i w'. rewrite list_lookup_alter. case_decide; [|by eauto].
    subst. destruct (sockets s !! i) as [w|]; intros [= <-]. by eauto.
Qed.

Lemma handler_preserves_invariant ws (handler : M unit) s :
  (∀ s, invariant s → invariant (exec handler s)) →
  invariant s → invariant (exec (when_subscribed ws handler) s).
Proof.
  intros Hh Hinv. unfold exec, when_subscribed.
  destruct (subscribed ws s); [by apply Hh|done].
Qed.

Lemma step_preserves_invariant s e : invariant s → invariant (step s e).
Proof.
  intros Hinv. destruct e; unfold step, handle.
  - unfold on_config. destruct (Config_get c endpoint_key) eqn:Hget; [|done].
    rewrite !exec_bind, exec_ret.
    apply connect_preserves_invariant.
    destruct Hinv. split; simpl; try done. by intros ? [= <-].
  - by apply (send_preserves_invariant (Message "ADD" "vitrivr" id)).
  - by apply (send_preserves_invariant (Message "REMOVE" "vitrivr" id)).
  - by apply (send_preserves_invariant (Message "CLEAR" "vitrivr" [])).
  - rewrite exec_bind, exec_ret. by apply connect_preserves_invariant.
  - done.
  - apply handler_preserves_invariant; [|done]. intros s0 H0.
    apply (invariant_frame s0); try done; [by eauto|].
    apply synchronize_preserves_NoDup, H0.
  - apply handler_preserves_invariant; [|done]. intros s0 H0.
    apply (invariant_frame s0); try done; [by eauto|constructor].
  - apply handler_preserves_invariant; [|done]. intros s0 H0.
    apply (invariant_frame s0); try done; [by eauto|constructor].
Qed.

Lemma run_preserves_invariant es s : invariant s → invariant (run s es).
Proof.
  revert s. induction es as [|e es IH]; intros s Hinv; [done|].
  apply IH. by apply step_preserves_invariant.
Qed.

Lemma reachable_invariant s : reachable s → invariant s.
Proof. intros [es ->]. apply run_preserves_invariant, invariant_init. Qed.

Lemma reachable_step s e : reachable s → reachable (step s e).
Proof.
  intros [es ->]. exists (es ++ [e]). unfold run. by rewrite foldl_app.
Qed.



(** ** Runs of the scenarios *)

Example scenario_add :
  _value (run init [ConfigEmits example_config;
                    SocketMessage 0 (Message "ADD" "vitrivr" ["a"; "b"])]) = ["a"; "b"].
Proof. vm_compute. reflexivity. Qed.

Example scenario_remove_clear :
  let s := run init [ConfigEmits example_config;
                     SocketMessage 0 (Message "ADD" "vitrivr" ["a"; "b"]);
                     SocketMessage 0 (Message "REMOVE" "vitrivr" ["a"])] in
  _value s = ["b"] ∧ _value (step s (SocketMessage 0 (Message "CLEAR" "vitrivr" []))) = [].
Proof. vm_compute. done. Qed.

Example scenario_add_repeated :
  _value (exec (synchronize (Message "ADD" "vitrivr" ["b"; "c"; "b"; "a"; "d"; "c"]))
               connected_with_a) = ["a"; "b"; "c"; "d"].
Proof. vm_compute. reflexivity. Qed.

Lemma reachable_connected_with_a : reachable connected_with_a.
Proof. by eexists. Qed.

(** ** [synchronize] *)

(** An ADD seen identifier by identifier: the old set is a prefix of the new
    one, and an identifier is appended, once, exactly when it is in the
    attribute list and was not in the set. *)
Lemma added_identifiers (s : CollabordinatorService) k ids :
  let s' := exec (synchronize (Message "ADD" k ids)) s in
  _value s `prefix_of` _value s'
  ∧ NoDup (drop (length (_value s)) (_value s'))
  ∧ drop (length (_value s)) (_value s') `sublist_of` ids
  ∧ ∀ v, v ∈ drop (length (_value s)) (_value s') ↔ v ∈ ids ∧ v ∉ _value s.
Proof.
  cbv zeta. rewrite synchronize_value. simpl.
  rewrite add_loop_first_occurrences, drop_app_length. split_and!.
  - by eexists.
  - apply NoDup_first_occurrences.
  - etrans; [apply first_occurrences_sublist|apply sublist_filter].
  - intros v. rewrite elem_of_first_occurrences, list_elem_of_filter. naive_solver.
Qed.

(** C1: an inbound ADD keeps the current set as it is and appends to it the
    identifiers of the attribute list that are not yet in the set, each once
    and in the order of their first occurrence in the attribute list; the new
    set is published, and the same ADD applied again leaves it unchanged. *)
Theorem synchronize_add (s : CollabordinatorService) (k : string) (ids : list string) :
  let msg := Message "ADD" k ids in
  let s' := exec (synchronize msg) s in
  _value s' = _value s ++ first_occurrences (filter (λ v, v ∉ _value s) ids)
  ∧ effects s' = effects s ++ [Publish (_value s')]
  ∧ _value (exec (synchronize msg) s') = _value s'.
Proof.
  cbv zeta. rewrite !synchronize_value. simpl.
  split_and!; [apply add_loop_first_occurrences|done|apply add_loop_again].
Qed.

(** C2: an inbound REMOVE treats the identifiers of the attribute list one
    after the other: the first occurrence of the identifier is removed when
    there is one, and the set is left as it is when there is none. *)
Theorem synchronize_remove (s : CollabordinatorService) (k : string) (ids : list string) :
  let s' := exec (synchronize (Message "REMOVE" k ids)) s in
  removes_each ids (_value s) (_value s')
  ∧ ((∀ v, v ∈ ids → v ∉ _value s) → _value s' = _value s)
  ∧ effects s' = effects s ++ [Publish (_value s')].
Proof.
  cbv zeta. rewrite !synchronize_value. simpl.
  split_and!; [apply remove_loop_each|apply remove_loop_absent|done].
Qed.

Lemma synchronize_remove_witness :
  _value (exec (synchronize (Message "REMOVE" "vitrivr" ["c"; "d"])) connected_with_a)
  = _value connected_with_a.
Proof.
  apply (synchronize_remove connected_with_a "vitrivr" ["c"; "d"]).
  intros v Hv. vm_compute. intros Ha.
  apply list_elem_of_singleton in Ha. subst v.
  apply elem_of_cons in Hv as [Hv|Hv]; [discriminate|].
  apply list_elem_of_singleton in Hv. discriminate.
Defined.

(** C3: an inbound CLEAR publishes the empty set, whatever the set was. *)
Theorem synchronize_clear (s : CollabordinatorService) (k : string) (ids : list string) :
  let s' := exec (synchronize (Message "CLEAR" k ids)) s in
  _value s' = [] ∧ effects s' = effects s ++ [Publish []].
Proof. done. Qed.

(** C4: one message keeps a duplicate-free set duplicate free, and from the
    empty set every finite sequence of messages leads to a duplicate-free set. *)
Theorem synchronize_no_duplicates (s : CollabordinatorService)
    (msgs : list CollabordinatorMessage) :
  (∀ msg, NoDup (_value s) → NoDup (_value (exec (synchronize msg) s)))
  ∧ (_value s = [] → NoDup (_value (deliver s msgs))).
Proof.
  split; [intros msg; apply synchronize_preserves_NoDup|].
  intros Hempty. assert (NoDup (_value s)) as Hnd by (rewrite Hempty; constructor).
  clear Hempty. revert s Hnd. induction msgs as [|msg msgs IH]; intros s Hnd; [done|].
  apply IH. by apply synchronize_preserves_NoDup.
Qed.

Lemma synchronize_no_duplicates_witness :
  NoDup (_value (exec (synchronize (Message "ADD" "vitrivr" ["a"; "a"])) init))
  ∧ NoDup (_value (deliver init [Message "ADD" "vitrivr" ["a"; "b"; "a"];
                                 Message "REMOVE" "vitrivr" ["b"];
                                 Message "ADD" "vitrivr" ["b"; "b"]])).
Proof.
  split.
  - apply (synchronize_no_duplicates init []). simpl. constructor.
  - apply (synchronize_no_duplicates init). reflexivity.
Defined.

(** ** The connection life cycle *)

Lemma subscribed_lt ws s : subscribed ws s = true → ws < length (sockets s).
Proof.
  unfold subscribed. destruct (sockets s !! ws) eqn:E; [|done].
  intros _. by apply lookup_lt_Some in E.
Qed.

Lemma step_keeps_webSocket s e : is_Some (_webSocket s) → is_Some (_webSocket (step s e)).
Proof.
  intros Hws. destruct e; unfold step, handle.
  - unfold on_config. destruct (Config_get c endpoint_key); [|done].
    rewrite !exec_bind, exec_ret. unfold exec at 1.
    by erewrite connect_configured.
  - rewrite add_sends, send_or_report_exec. by destruct (_webSocket s).
  - rewrite remove_sends, send_or_report_exec. by destruct (_webSocket s).
  - rewrite clear_sends, send_or_report_exec. by destruct (_webSocket s).
  - rewrite exec_bind, exec_ret. destruct (_config s) as [c|] eqn:Hc.
    + unfold exec. by erewrite connect_configured.
    + unfold_service. by rewrite Hc.
  - done.
  - unfold exec, when_subscribed. by destruct (subscribed ws s).
  - unfold exec, when_subscribed. by destruct (subscribed ws s).
  - unfold exec, when_subscribed. by destruct (subscribed ws s).
Qed.

(** C5, as the code has it: when the error handler of a subscribed socket
    runs, the fixed error line is logged, the empty set is published, and the
    socket reference is kept, so that [available()] answers [true]. *)
Theorem on_error_resets_and_stays_available (s : CollabordinatorService) (ws : nat) :
  reachable s → subscribed ws s = true →
  let s' := step s (SocketError ws) in
  _value s' = []
  ∧ effects s' = effects s ++ [ConsoleLog error_line; Publish []]
  ∧ _webSocket s' = _webSocket s
  ∧ eval available s' = true.
Proof.
  intros Hreach Hsub. cbv zeta.
  unfold step, handle, exec, when_subscribed. rewrite Hsub.
  split_and!; try done.
  - simpl. by rewrite <- app_assoc.
  - apply reachable_invariant in Hreach.
    destruct (inv_created s Hreach ws (subscribed_lt ws s Hsub)) as [cur Hcur].
    unfold_service. simpl. by rewrite Hcur.
Qed.

Lemma on_error_resets_and_stays_available_witness :
  _value (step connected_with_a (SocketError 0)) = []
  ∧ effects (step connected_with_a (SocketError 0))
    = effects connected_with_a ++ [ConsoleLog error_line; Publish []]
  ∧ _webSocket (step connected_with_a (SocketError 0)) = _webSocket connected_with_a
  ∧ eval available (step connected_with_a (SocketError 0)) = true.
Proof.
  apply (on_error_resets_and_stays_available connected_with_a 0).
  - exists [ConfigEmits example_config; SocketMessage 0 (Message "ADD" "vitrivr" ["a"])].
    reflexivity.
  - vm_compute. reflexivity.
Defined.

(** C5 as the specification words it fails: after the error handler ran on a
    connected service, [available()] does not answer [false]. *)
Lemma on_error_unavailable_counterexample :
  reachable connected_with_a ∧ subscribed 0 connected_with_a = true
  ∧ ¬ (_value (step connected_with_a (SocketError 0)) = []
       ∧ effects (step connected_with_a (SocketError 0))
         = effects connected_with_a ++ [ConsoleLog error_line; Publish []]
       ∧ eval available (step connected_with_a (SocketError 0)) = false).
Proof.
  split_and!; [apply reachable_connected_with_a|by vm_compute|].
  intros (_ & _ & Havail). vm_compute in Havail. discriminate.
Qed.

(** C6: on a service that holds a socket, [connect()] answers [true] after
    it completed the old socket, published the empty set, created a socket
    for the configured address and subscribed to it, in this order. *)
Theorem connect_replaces_socket (s : CollabordinatorService) (old : nat) :
  reachable s → _webSocket s = Some old →
  ∃ address,
    (_config s ≫= λ c, Config_get c endpoint_key) = Some address
    ∧ eval connect s = true
    ∧ effects (exec connect s) =
        effects s ++ [SocketComplete old; Publish [];
                      SocketCreate (length (sockets s)) (Some address);
                      SocketSubscribe (length (sockets s))]
    ∧ _value (exec connect s) = []
    ∧ _webSocket (exec connect s) = Some (length (sockets s))
    ∧ isStopped <$> sockets (exec connect s) !! old = Some true
    ∧ sockets (exec connect s) !! length (sockets s)
      = Some (Socket (Some address) [] false true).
Proof.
  intros Hinv%reachable_invariant Hold.
  destruct (inv_config s Hinv) as [c Hc]; [by eauto|].
  destruct (inv_address s Hinv c Hc) as [address Haddr].
  pose proof (inv_reference s Hinv old Hold) as Hlt.
  exists address. unfold exec, eval. rewrite (connect_configured s c Hc), Hold, Hc.
  simpl. rewrite Haddr. split_and!; try done.
  - rewrite lookup_app_l by (by rewrite length_alter).
    rewrite list_lookup_alter_eq.
    destruct (lookup_lt_is_Some_2 (sockets s) old Hlt) as [w ->]. done.
  - rewrite lookup_app_r by (by rewrite length_alter).
    by rewrite length_alter, Nat.sub_diag.
Qed.

Lemma connect_replaces_socket_witness :
  ∃ address,
    (_config connected_with_a ≫= λ c, Config_get c endpoint_key) = Some address
    ∧ eval connect connected_with_a = true
    ∧ effects (exec connect connected_with_a) =
        effects connected_with_a ++
          [SocketComplete 0; Publish [];
           SocketCreate (length (sockets connected_with_a)) (Some address);
           SocketSubscribe (length (sockets connected_with_a))]
    ∧ _value (exec connect connected_with_a) = []
    ∧ _webSocket (exec connect connected_with_a) = Some (length (sockets connected_with_a))
    ∧ isStopped <$> sockets (exec connect connected_with_a) !! 0 = Some true
    ∧ sockets (exec connect connected_with_a) !! length (sockets connected_with_a)
      = Some (Socket (Some address) [] false true).
Proof.
  apply (connect_replaces_socket connected_with_a 0).
  - exists [ConfigEmits example_config; SocketMessage 0 (Message "ADD" "vitrivr" ["a"])].
    reflexivity.
  - vm_compute. reflexivity.
Defined.

(** C7: without a configuration [connect()] answers [false] and leaves the
    service object as it was. *)
Theorem connect_without_config (s : CollabordinatorService) :
  _config s = None → connect s = (false, s).
Proof. apply connect_unconfigured. Qed.

Lemma connect_without_config_witness : connect init = (false, init).
Proof. apply (connect_without_config init). reflexivity. Defined.

(** ** What changes the published set *)

Lemma send_or_report_only_sends msg s : only_sends (send_or_report msg) msg s.
Proof.
  unfold only_sends. rewrite send_or_report_exec.
  destruct (_webSocket s) as [ws|] eqn:Hws; by rewrite ?Hws.
Qed.

(** C8: [add], [remove] and [clear] never touch the published set: with a
    socket they hand one message to it, without a socket they write one line
    to the console, and nothing else of the service changes. *)
Theorem mutation_calls_only_send (s : CollabordinatorService) (id : list string) :
  only_sends (add id) (Message "ADD" "vitrivr" id) s
  ∧ only_sends (remove id) (Message "REMOVE" "vitrivr" id) s
  ∧ only_sends clear (Message "CLEAR" "vitrivr" []) s.
Proof.
  rewrite add_sends, remove_sends, clear_sends.
  split_and!; apply send_or_report_only_sends.
Qed.

(** C9 as the specification words it fails: the error handler is not a
    received message, and it changes the published set. *)
Lemma set_changed_without_message_counterexample :
  reachable connected_with_a
  ∧ is_message (SocketError 0) = false
  ∧ _value connected_with_a = ["a"]
  ∧ _value (step connected_with_a (SocketError 0)) = []
  ∧ _value (step connected_with_a (SocketError 0)) ≠ _value connected_with_a.
Proof.
  split_and!; [apply reachable_connected_with_a|done|by vm_compute|by vm_compute|].
  vm_compute. discriminate.
Qed.

(** C9, as the code has it: an event that is not a received message either
    leaves the published set as it is or resets it to empty, and it resets it
    exactly when [connect] runs with a configuration and a socket at hand, or
    when the error or completion handler of a subscribed socket runs. *)
Theorem set_changes_by_message_or_reset (s : CollabordinatorService) (e : Event) :
  is_message e = false →
  _value (step s e) = if resets s e then [] else _value s.
Proof.
  intros Hmsg. destruct e; try discriminate; unfold step, handle, resets.
  - unfold on_config. destruct (Config_get c endpoint_key) as [address|] eqn:Haddr; [|done].
    rewrite !exec_bind, exec_ret. unfold exec at 1.
    rewrite (connect_configured _ c) by done. simpl.
    by destruct (_webSocket s).
  - by rewrite add_sends, send_or_report_exec; destruct (_webSocket s).
  - by rewrite remove_sends, send_or_report_exec; destruct (_webSocket s).
  - by rewrite clear_sends, send_or_report_exec; destruct (_webSocket s).
  - rewrite exec_bind, exec_ret. destruct (_config s) as [c|] eqn:Hc.
    + unfold exec. rewrite (connect_configured s c Hc). simpl.
      by destruct (_webSocket s).
    + unfold exec. by rewrite (connect_unconfigured s Hc).
  - done.
  - unfold exec, when_subscribed. by destruct (subscribed ws s).
  - unfold exec, when_subscribed. by destruct (subscribed ws s).
Qed.

Lemma set_changes_by_message_or_reset_witness :
  _value (step connected_with_a CallConnect) = [].
Proof.
  apply (set_changes_by_message_or_reset connected_with_a CallConnect).
  reflexivity.
Defined.

(** ** [available()] *)

(** C10: once [available()] answers [true] it answers [true] after every
    further sequence of events: configuration updates, calls of the public
    methods, and messages, errors and completions of any socket. *)
Theorem available_stays_true (s : CollabordinatorService) (es : list Event) :
  eval available s = true → eval available (run s es) = true.
Proof.
  assert (∀ s0, eval available s0 = true ↔ is_Some (_webSocket s0)) as Havail.
  { intros s0. unfold_service. simpl.
    destruct (_webSocket s0); split; first [done|by eexists|by intros [? ?]]. }
  rewrite !Havail. clear Havail.
  revert s. induction es as [|e es IH]; intros s Hws; [done|].
  apply IH. by apply step_keeps_webSocket.
Qed.

Lemma available_stays_true_witness :
  eval available
    (run connected_with_a
         [SocketError 0; SocketClosed 0; CallConnect; CallClear; SocketClosed 1;
          ConfigEmits example_config; CallAdd ["b"]; SocketError 2]) = true.
Proof.
  apply (available_stays_true connected_with_a). vm_compute. reflexivity.
Defined.

(** ** How the loops of [synchronize] compose *)

Section LoopAlgebra.
Implicit Types (current l : list string) (v x : string) (ids : list string).

Lemma filter_all (P : string → Prop) `{!∀ x, Decision (P x)} l :
  (∀ x, x ∈ l → P x) → filter P l = l.
Proof.
  induction l as [|y l IH]; intros Hl; [done|].
  rewrite filter_cons_True by (apply Hl; by left).
  f_equal. apply IH. intros x Hx. apply Hl. by right.
Qed.

Lemma filter_ext_in (P Q : string → Prop)
    `{!∀ x, Decision (P x), !∀ x, Decision (Q x)} l :
  (∀ x, x ∈ l → (P x ↔ Q x)) → filter P l = filter Q l.
Proof.
  induction l as [|y l IH]; intros Hl; [done|].
  rewrite !filter_cons. rewrite IH by (intros x Hx; apply Hl; by right).
  destruct (Hl y) as [H1 H2]; [by left|].
  destruct (decide (P y)), (decide (Q y)); naive_solver.
Qed.

Lemma remove_step_filter current v :
  NoDup current → remove_step current v = filter (λ x, x ≠ v) current.
Proof.
  intros Hnd. destruct (decide (v ∈ current)) as [Hv|Hv].
  - destruct (indexOf_present current v Hv) as (l1 & l2 & -> & Hl1 & _).
    rewrite remove_step_present by done.
    apply NoDup_app in Hnd as (_ & _ & [Hl2 _]%NoDup_cons).
    rewrite filter_app, filter_cons_False by naive_solver.
    rewrite !filter_all; [done| |]; intros x Hx ->; done.
  - rewrite remove_step_absent by done. symmetry. apply filter_all.
    intros x Hx ->. done.
Qed.

Lemma remove_loop_filter ids current :
  NoDup current → foldl remove_step current ids = filter (λ x, x ∉ ids) current.
Proof.
  revert current. induction ids as [|v ids IH]; intros current Hnd; simpl.
  - symmetry. apply filter_all. intros x _. apply not_elem_of_nil.
  - rewrite IH by (by apply remove_step_NoDup).
    rewrite remove_step_filter, list_filter_filter by done.
    apply list_filter_iff. intros x. rewrite not_elem_of_cons. naive_solver.
Qed.

Lemma remove_loop_sublist ids current : foldl remove_step current ids `sublist_of` current.
Proof.
  revert current. induction ids as [|v ids IH]; intros current; simpl; [done|].
  etrans; [apply IH|].
  destruct (remove_step_first current v) as [l _|l1 l2 _]; [done|].
  apply sublist_app; [done|]. by apply sublist_cons.
Qed.

Lemma remove_loop_length ids current :
  (length current ≤ length (foldl remove_step current ids) + length ids)%nat.
Proof.
  revert current. induction ids as [|v ids IH]; intros current; simpl; [lia|].
  specialize (IH (remove_step current v)).
  destruct (remove_step_first current v) as [l _|l1 l2 _]; [lia|].
  rewrite !length_app in *. simpl. lia.
Qed.

Lemma elem_of_add_loop ids current x :
  x ∈ foldl add_step current ids ↔ x ∈ current ∨ x ∈ ids.
Proof.
  rewrite add_loop_first_occurrences, elem_of_app, elem_of_first_occurrences,
    list_elem_of_filter.
  destruct (decide (x ∈ current)); naive_solver.
Qed.

Lemma add_loop_length ids current :
  (length current ≤ length (foldl add_step current ids) ≤ length current + length ids)%nat.
Proof.
  rewrite add_loop_first_occurrences, length_app.
  assert (length (first_occurrences (filter (λ v, v ∉ current) ids)) ≤ length ids)%nat.
  { etrans; [apply sublist_length, first_occurrences_sublist|].
    apply sublist_length, sublist_filter. }
  lia.
Qed.

Lemma add_loop_NoDup ids current : NoDup current → NoDup (foldl add_step current ids).
Proof. apply foldl_NoDup, add_step_NoDup. Qed.

Lemma first_occurrences_NoDup l : NoDup l → first_occurrences l = l.
Proof.
  induction 1 as [|y l Hy Hnd IH]; simpl; [done|].
  rewrite IH. f_equal. apply filter_all. intros x Hx ->. done.
Qed.

End LoopAlgebra.

(** ** More on [synchronize] *)

(** X1: on a duplicate-free set an inbound REMOVE leaves exactly the
    identifiers that are not in the attribute list, in their old order; none
    of the removed identifiers is left. *)
Theorem synchronize_remove_filter (s : CollabordinatorService) (k : string)
    (ids : list string) :
  NoDup (_value s) →
  _value (exec (synchronize (Message "REMOVE" k ids)) s)
  = filter (λ x, x ∉ ids) (_value s).
Proof. intros Hnd. rewrite synchronize_value. simpl. by apply remove_loop_filter. Qed.

Lemma synchronize_remove_filter_witness :
  _value (exec (synchronize (Message "REMOVE" "vitrivr" ["a"; "c"; "a"])) connected_with_a)
  = filter (λ x, x ∉ ["a"; "c"; "a"]) (_value connected_with_a).
Proof.
  apply (synchronize_remove_filter connected_with_a "vitrivr" ["a"; "c"; "a"]).
  vm_compute. apply NoDup_singleton.
Defined.

(** X2: whatever the set, an inbound REMOVE only drops elements: what is left
    keeps its order, and at most one element is dropped per identifier of the
    attribute list. *)
Theorem synchronize_remove_bounds (s : CollabordinatorService) (k : string)
    (ids : list string) :
  _value (exec (synchronize (Message "REMOVE" k ids)) s) `sublist_of` _value s
  ∧ (length (_value s)
     ≤ length (_value (exec (synchronize (Message "REMOVE" k ids)) s)) + length ids)%nat.
Proof.
  rewrite synchronize_value. simpl.
  split; [apply remove_loop_sublist|apply remove_loop_length].
Qed.

(** X3: after an inbound ADD the set holds exactly the identifiers it held
    before and those of the attribute list; it never shrinks and grows by at
    most the length of the attribute list. *)
Theorem synchronize_add_elements (s : CollabordinatorService) (k : string)
    (ids : list string) (v : string) :
  (v ∈ _value (exec (synchronize (Message "ADD" k ids)) s) ↔ v ∈ _value s ∨ v ∈ ids)
  ∧ (length (_value s) ≤ length (_value (exec (synchronize (Message "ADD" k ids)) s))
     ≤ length (_value s) + length ids)%nat.
Proof.
  rewrite synchronize_value. simpl.
  split; [apply elem_of_add_loop|apply add_loop_length].
Qed.

(** X4: on a duplicate-free set, an ADD followed by a REMOVE of the same
    identifiers leaves the old set without these identifiers; when none of
    them was in the set, the old set is back. *)
Theorem add_then_remove (s : CollabordinatorService) (k k' : string) (ids : list string) :
  NoDup (_value s) →
  let s' := exec (synchronize (Message "REMOVE" k' ids))
                 (exec (synchronize (Message "ADD" k ids)) s) in
  _value s' = filter (λ x, x ∉ ids) (_value s)
  ∧ ((∀ v, v ∈ ids → v ∉ _value s) → _value s' = _value s).
Proof.
  intros Hnd. cbv zeta. rewrite !synchronize_value. simpl.
  assert (foldl remove_step (foldl add_step (_value s) ids) ids
          = filter (λ x, x ∉ ids) (_value s)) as E.
  { rewrite remove_loop_filter by (by apply add_loop_NoDup).
    rewrite add_loop_first_occurrences, filter_app.
    rewrite (filter_none _ (first_occurrences _)); [by rewrite app_nil_r|].
    intros x Hx Hnot. apply Hnot.
    apply elem_of_first_occurrences, list_elem_of_filter in Hx. tauto. }
  split; [done|]. intros Hdisj. rewrite E. apply filter_all.
  intros x Hx Hin. by apply (Hdisj x).
Qed.

Lemma add_then_remove_witness :
  _value (exec (synchronize (Message "REMOVE" "vitrivr" ["b"; "c"]))
               (exec (synchronize (Message "ADD" "vitrivr" ["b"; "c"])) connected_with_a))
  = _value connected_with_a.
Proof.
  apply (add_then_remove connected_with_a "vitrivr" "vitrivr" ["b"; "c"]).
  - vm_compute. apply NoDup_singleton.
  - intros v Hv. vm_compute. intros Ha.
    apply list_elem_of_singleton in Ha. subst v.
    apply elem_of_cons in Hv as [Hv|Hv]; [discriminate|].
    apply list_elem_of_singleton in Hv. discriminate.
Defined.

(** X5: on a duplicate-free set, a REMOVE followed by an ADD of the same
    identifiers moves them behind the identifiers that were not named, in the
    order of their first occurrence in the attribute list. *)
Theorem remove_then_add (s : CollabordinatorService) (k k' : string) (ids : list string) :
  NoDup (_value s) →
  _value (exec (synchronize (Message "ADD" k' ids))
               (exec (synchronize (Message "REMOVE" k ids)) s))
  = filter (λ x, x ∉ ids) (_value s) ++ first_occurrences ids.
Proof.
  intros Hnd. rewrite !synchronize_value. simpl.
  rewrite remove_loop_filter, add_loop_first_occurrences by done.
  do 2 f_equal. apply filter_all.
  intros x Hx Hin. apply list_elem_of_filter in Hin. tauto.
Qed.

Lemma remove_then_add_witness :
  _value (exec (synchronize (Message "ADD" "vitrivr" ["b"; "a"; "b"]))
               (exec (synchronize (Message "REMOVE" "vitrivr" ["b"; "a"; "b"]))
                     connected_with_a))
  = filter (λ x, x ∉ ["b"; "a"; "b"]) (_value connected_with_a)
    ++ first_occurrences ["b"; "a"; "b"].
Proof.
  apply (remove_then_add connected_with_a "vitrivr" "vitrivr" ["b"; "a"; "b"]).
  vm_compute. apply NoDup_singleton.
Defined.

(** X6: two ADD messages in a row give the set that one ADD with the two
    attribute lists joined gives, and likewise for two REMOVE messages. *)
Theorem synchronize_batches (s : CollabordinatorService) (k1 k2 k : string)
    (ids1 ids2 : list string) :
  _value (exec (synchronize (Message "ADD" k2 ids2))
               (exec (synchronize (Message "ADD" k1 ids1)) s))
  = _value (exec (synchronize (Message "ADD" k (ids1 ++ ids2))) s)
  ∧ _value (exec (synchronize (Message "REMOVE" k2 ids2))
                 (exec (synchronize (Message "REMOVE" k1 ids1)) s))
    = _value (exec (synchronize (Message "REMOVE" k (ids1 ++ ids2))) s).
Proof. rewrite !synchronize_value. simpl. by rewrite !foldl_app. Qed.

(** X7: on a duplicate-free set, two ADD messages applied in either order
    give the same identifiers, each once; only their order may differ. *)
Theorem add_order_permutes (s : CollabordinatorService) (k1 k2 : string)
    (ids1 ids2 : list string) :
  NoDup (_value s) →
  _value (exec (synchronize (Message "ADD" k2 ids2))
               (exec (synchronize (Message "ADD" k1 ids1)) s))
  ≡ₚ _value (exec (synchronize (Message "ADD" k1 ids1))
                  (exec (synchronize (Message "ADD" k2 ids2)) s)).
Proof.
  intros Hnd. rewrite !synchronize_value. simpl.
  apply NoDup_Permutation; [by do 2 apply add_loop_NoDup..|].
  intros x. rewrite !elem_of_add_loop. tauto.
Qed.

Lemma add_order_permutes_witness :
  _value (exec (synchronize (Message "ADD" "vitrivr" ["c"; "a"]))
               (exec (synchronize (Message "ADD" "vitrivr" ["b"; "c"])) connected_with_a))
  ≡ₚ _value (exec (synchronize (Message "ADD" "vitrivr" ["b"; "c"]))
                  (exec (synchronize (Message "ADD" "vitrivr" ["c"; "a"])) connected_with_a)).
Proof.
  apply (add_order_permutes connected_with_a). vm_compute. apply NoDup_singleton.
Defined.

(** X8: on a duplicate-free set, two REMOVE messages applied in either order
    give the same set. *)
Theorem remove_order_commutes (s : CollabordinatorService) (k1 k2 : string)
    (ids1 ids2 : list string) :
  NoDup (_value s) →
  _value (exec (synchronize (Message "REMOVE" k2 ids2))
               (exec (synchronize (Message "REMOVE" k1 ids1)) s))
  = _value (exec (synchronize (Message "REMOVE" k1 ids1))
                 (exec (synchronize (Message "REMOVE" k2 ids2)) s)).
Proof.
  intros Hnd. rewrite !synchronize_value. simpl.
  rewrite !(remove_loop_filter _ (foldl _ _ _)) by (by apply foldl_NoDup, Hnd; apply remove_step_NoDup).
  rewrite !remove_loop_filter, !list_filter_filter by done.
  apply list_filter_iff. tauto.
Qed.

Lemma remove_order_commutes_witness :
  _value (exec (synchronize (Message "REMOVE" "vitrivr" ["a"]))
               (exec (synchronize (Message "REMOVE" "vitrivr" ["b"; "a"])) connected_with_a))
  = _value (exec (synchronize (Message "REMOVE" "vitrivr" ["b"; "a"]))
                 (exec (synchronize (Message "REMOVE" "vitrivr" ["a"])) connected_with_a)).
Proof.
  apply (remove_order_commutes connected_with_a). vm_compute. apply NoDup_singleton.
Defined.

(** X9: a message whose action is none of [ADD], [REMOVE] and [CLEAR] (the
    comparison is exact, so [add] is such an action) leaves the set as it is,
    and the unchanged set is published once more. *)
Theorem synchronize_unknown_action (s : CollabordinatorService)
    (msg : CollabordinatorMessage) :
  action msg ∉ ["ADD"; "REMOVE"; "CLEAR"] →
  let s' := exec (synchronize msg) s in
  _value s' = _value s ∧ effects s' = effects s ++ [Publish (_value s)].
Proof.
  intros Hact. cbv zeta.
  destruct (synchronize_frame msg s) as (_ & _ & _ & Heff). cbv zeta in Heff.
  rewrite Heff, synchronize_value.
  rewrite !not_elem_of_cons in Hact. destruct Hact as (H1 & H2 & H3 & _).
  apply String.eqb_neq in H1, H2, H3. by rewrite H1, H2, H3.
Qed.

Lemma synchronize_unknown_action_witness :
  _value (exec (synchronize (Message "add" "vitrivr" ["b"])) connected_with_a)
  = _value connected_with_a
  ∧ effects (exec (synchronize (Message "add" "vitrivr" ["b"])) connected_with_a)
    = effects connected_with_a ++ [Publish (_value connected_with_a)].
Proof.
  apply (synchronize_unknown_action connected_with_a (Message "add" "vitrivr" ["b"])).
  simpl. rewrite !not_elem_of_cons. split_and!; try discriminate. apply not_elem_of_nil.
Defined.

(** ** More invariants of the reachable states *)

Lemma connection_invariant_init : connection_invariant init.
Proof.
  split; simpl; try done.
  intros ws msg Hin. by apply elem_of_nil in Hin.
Qed.

Lemma connect_establishes s c :
  _config s = Some c →
  (∀ ws, ws < length (sockets s) → is_Some (_webSocket s)) →
  (∀ ws w, sockets s !! ws = Some w → (isStopped w = false ↔ _webSocket s = Some ws)) →
  (∀ ws msg, SocketNext ws msg ∈ effects s → well_formed_request msg) →
  connection_invariant (exec connect s).
Proof.
  intros Hc Hcre Hopen Hreq. unfold exec. rewrite (connect_configured s c Hc). simpl.
  assert (length (match _webSocket s with
                  | Some old => alter stop old (sockets s)
                  | None => sockets s
                  end) = length (sockets s)) as Hlen.
  { destruct (_webSocket s); [apply length_alter|done]. }
  split; simpl.
  - intros cur [= <-]. rewrite length_app, Hlen. simpl. lia.
  - intros ws w Hw. apply lookup_snoc_Some in Hw as [[Hlt Hw]|[Hws <-]].
    + rewrite Hlen in Hlt. assert (isStopped w = true) as ->.
      { destruct (_webSocket s) as [old|] eqn:Hold.
        - rewrite list_lookup_alter in Hw. case_decide as Hdec.
          + subst ws. destruct (sockets s !! old); by simplify_eq/=.
          + apply Hopen in Hw. destruct (isStopped w); [done|].
            destruct Hw as [Hw _]. specialize (Hw eq_refl). congruence.
        - destruct (Hcre ws Hlt) as [? ?]. done. }
      split; [done|]. intros [= ?]. lia.
    + rewrite Hlen in Hws. subst ws. done.
  - intros cur w [= <-] Hw. rewrite lookup_app_r, Hlen, Nat.sub_diag in Hw by lia.
    simplify_eq/=. by eauto.
  - by eauto.
  - intros ws msg Hin. apply (Hreq ws msg).
    rewrite !elem_of_app in Hin. destruct Hin as [?|[Hin|Hin]]; [done|..].
    + destruct (_webSocket s); [|by apply elem_of_nil in Hin].
      rewrite !elem_of_cons in Hin. destruct Hin as [?|[?|Hin]]; try done.
      by apply elem_of_nil in Hin.
    + rewrite !elem_of_cons in Hin. destruct Hin as [?|[?|Hin]]; try done.
      by apply elem_of_nil in Hin.
Qed.

Lemma send_preserves_connection msg s :
  well_formed_request msg →
  connection_invariant s → connection_invariant (exec (send_or_report msg) s).
Proof.
  intros Hmsg [Hlatest Hopen Hurl Hcfg Hreq]. rewrite send_or_report_exec.
  destruct (_webSocket s) as [cur|] eqn:Hcur; split; simpl; rewrite ?Hcur; try done.
  - intros ? [= <-]. rewrite length_alter. by apply Hlatest.
  - intros ws w. rewrite list_lookup_alter. case_decide as Hdec.
    + subst ws. destruct (sockets s !! cur) as [w0|] eqn:E; intros [= <-].
      simpl. by apply Hopen.
    + by apply Hopen.
  - intros ? w [= <-]. rewrite list_lookup_alter_eq.
    destruct (sockets s !! cur) as [w0|] eqn:E; intros [= <-]. simpl. by eapply Hurl.
  - intros ws m [Hin|Hin%list_elem_of_singleton]%elem_of_app; [by eauto|].
    by simplify_eq.
  - intros ws m [Hin|Hin%list_elem_of_singleton]%elem_of_app; [by eauto|done].
Qed.

Lemma connection_frame s s' :
  _webSocket s' = _webSocket s → _config s' = _config s → sockets s' = sockets s →
  (∀ ws msg, SocketNext ws msg ∈ effects s' → SocketNext ws msg ∈ effects s) →
  connection_invariant s → connection_invariant s'.
Proof.
  intros Hws Hc Hso Heff [Hlatest Hopen Hurl Hcfg Hreq].
  split; rewrite ?Hws, ?Hc, ?Hso; by eauto.
Qed.

Lemma handler_preserves_connection ws (handler : M unit) s :
  (∀ s, connection_invariant s → connection_invariant (exec handler s)) →
  connection_invariant s → connection_invariant (exec (when_subscribed ws handler) s).
Proof.
  intros Hh Hinv. unfold exec, when_subscribed.
  destruct (subscribed ws s); [by apply Hh|done].
Qed.

Lemma step_preserves_connection s e :
  invariant s → connection_invariant s → connection_invariant (step s e).
Proof.
  intros Hinv Hcon. destruct e; unfold step, handle.
  - unfold on_config. destruct (Config_get c endpoint_key) eqn:Hget; [|done].
    rewrite !exec_bind, exec_ret.
    apply (connect_establishes _ c); simpl; try done; [apply Hinv|apply Hcon..].
  - rewrite add_sends. apply send_preserves_connection; [|done].
    split; simpl; by eauto.
  - rewrite remove_sends. apply send_preserves_connection; [|done].
    split; simpl; by eauto.
  - rewrite clear_sends. apply send_preserves_connection; [|done].
    split; simpl; by eauto.
  - rewrite exec_bind, exec_ret. destruct (_config s) as [c|] eqn:Hc.
    + apply (connect_establishes _ c); try done; [apply Hinv|apply Hcon..].
    + unfold exec. by rewrite (connect_unconfigured s Hc).
  - done.
  - apply handler_preserves_connection; [|done]. intros s0 H0.
    apply (connection_frame s0); try done.
    intros ws' m [Hin|Hin%list_elem_of_singleton]%elem_of_app; done.
  - apply handler_preserves_connection; [|done]. intros s0 H0.
    apply (connection_frame s0); try done. simpl.
    intros ws' m Hin. rewrite !elem_of_app, !list_elem_of_singleton in Hin.
    destruct Hin as [[?|?]|?]; done.
  - apply handler_preserves_connection; [|done]. intros s0 H0.
    apply (connection_frame s0); try done. simpl.
    intros ws' m Hin. rewrite !elem_of_app, !list_elem_of_singleton in Hin.
    destruct Hin as [[?|?]|?]; done.
Qed.

Lemma run_preserves_connection es s :
  invariant s → connection_invariant s → connection_invariant (run s es).
Proof.
  revert s. induction es as [|e es IH]; intros s Hinv Hcon; [done|].
  apply IH; [by apply step_preserves_invariant|by apply step_preserves_connection].
Qed.

Lemma reachable_connection s : reachable s → connection_invariant s.
Proof.
  intros [es ->]. apply run_preserves_connection;
    [apply invariant_init|apply connection_invariant_init].
Qed.

Lemma reachable_run s es : reachable s → reachable (run s es).
Proof.
  intros [es0 ->]. exists (es0 ++ es). unfold run. by rewrite foldl_app.
Qed.

(** ** More on the connection life cycle *)

(** X10: in every reachable state the socket the service refers to is the
    one created last, and it is the only socket that was not completed. *)
Theorem one_open_socket (s : CollabordinatorService) (ws : nat) (w : WebSocketSubject) :
  reachable s → sockets s !! ws = Some w →
  (isStopped w = false ↔ _webSocket s = Some ws)
  ∧ (isStopped w = false → S ws = length (sockets s)).
Proof.
  intros Hcon%reachable_connection Hw.
  split; [by apply (cinv_open s Hcon)|].
  intros Hopen. apply (cinv_latest s Hcon). by apply (cinv_open s Hcon ws w).
Qed.

Lemma one_open_socket_witness :
  (isStopped (Socket (Some "ws://host/collab") [] false true) = false
   ↔ _webSocket (run init [ConfigEmits example_config;
                           SocketMessage 0 (Message "ADD" "vitrivr" ["a"]); CallConnect])
     = Some 1)
  ∧ (isStopped (Socket (Some "ws://host/collab") [] false true) = false
     → 2 = length (sockets (run init [ConfigEmits example_config;
                                      SocketMessage 0 (Message "ADD" "vitrivr" ["a"]);
                                      CallConnect]))).
Proof.
  apply (one_open_socket _ 1 (Socket (Some "ws://host/collab") [] false true)).
  - exists [ConfigEmits example_config;
            SocketMessage 0 (Message "ADD" "vitrivr" ["a"]); CallConnect].
    reflexivity.
  - vm_compute. reflexivity.
Defined.

Lemma step_keeps_completed s e ws w :
  invariant s → connection_invariant s →
  sockets s !! ws = Some w → isStopped w = true → sockets (step s e) !! ws = Some w.
Proof.
  intros Hinv Hcon Hw Hstop.
  assert (_webSocket s ≠ Some ws) as Hne.
  { intros Hcur. apply (cinv_open s Hcon ws w Hw) in Hcur. congruence. }
  assert (∀ c, _config s = Some c → sockets (exec connect s) !! ws = Some w) as Hconnect.
  { intros c Hc. unfold exec. rewrite (connect_configured s c Hc). simpl.
    pose proof (lookup_lt_Some _ _ _ Hw) as Hlt.
    destruct (_webSocket s) as [old|].
    - rewrite lookup_app_l by (by rewrite length_alter).
      rewrite list_lookup_alter_ne; [done|congruence].
    - by rewrite lookup_app_l. }
  assert (∀ msg, sockets (exec (send_or_report msg) s) !! ws = Some w) as Hsend.
  { intros msg. rewrite send_or_report_exec. destruct (_webSocket s) as [cur|]; [|done].
    simpl. rewrite list_lookup_alter_ne; [done|congruence]. }
  destruct e; unfold step, handle.
  - unfold on_config. destruct (Config_get c endpoint_key) eqn:Hget; [|done].
    rewrite !exec_bind, exec_ret. unfold exec at 1.
    rewrite (connect_configured _ c) by done. simpl.
    pose proof (lookup_lt_Some _ _ _ Hw) as Hlt.
    destruct (_webSocket s) as [old|].
    + rewrite lookup_app_l by (by rewrite length_alter).
      rewrite list_lookup_alter_ne; [done|congruence].
    + by rewrite lookup_app_l.
  - rewrite add_sends. apply Hsend.
  - rewrite remove_sends. apply Hsend.
  - rewrite clear_sends. apply Hsend.
  - rewrite exec_bind, exec_ret. destruct (_config s) as [c|] eqn:Hc; [by eauto|].
    unfold exec. by rewrite (connect_unconfigured s Hc).
  - done.
  - unfold exec, when_subscribed. by destruct (subscribed ws0 s).
  - unfold exec, when_subscribed. by destruct (subscribed ws0 s).
  - unfold exec, when_subscribed. by destruct (subscribed ws0 s).
Qed.

(** X11: once the service completed a socket it never touches it again:
    after every further sequence of events the socket is as it was, so no
    request is ever handed to a completed socket. *)
Theorem completed_socket_is_frozen (s : CollabordinatorService) (es : list Event)
    (ws : nat) (w : WebSocketSubject) :
  reachable s → sockets s !! ws = Some w → isStopped w = true →
  sockets (run s es) !! ws = Some w.
Proof.
  intros Hreach Hw Hstop. revert s Hreach Hw.
  induction es as [|e es IH]; intros s Hreach Hw; [done|].
  apply IH; [by apply reachable_step|].
  apply step_keeps_completed;
    [by apply reachable_invariant|by apply reachable_connection|done..].
Qed.

Lemma completed_socket_is_frozen_witness :
  sockets (run (run init [ConfigEmits example_config;
                          SocketMessage 0 (Message "ADD" "vitrivr" ["a"]); CallConnect])
               [CallAdd ["b"]; SocketMessage 0 (Message "ADD" "vitrivr" ["b"]);
                CallClear; CallConnect; CallRemove ["b"]]) !! 0
  = Some (Socket (Some "ws://host/collab") [] true true).
Proof.
  apply completed_socket_is_frozen.
  - exists [ConfigEmits example_config;
            SocketMessage 0 (Message "ADD" "vitrivr" ["a"]); CallConnect].
    reflexivity.
  - vm_compute. reflexivity.
  - reflexivity.
Defined.

(** X12: every request the service ever hands to a socket carries the key
    [vitrivr] and the action [ADD], [REMOVE] or [CLEAR], and a [CLEAR]
    request carries no identifiers. *)
Theorem requests_well_formed (s : CollabordinatorService) (ws : nat)
    (msg : CollabordinatorMessage) :
  reachable s → SocketNext ws msg ∈ effects s → well_formed_request msg.
Proof. intros Hcon%reachable_connection. apply (cinv_requests s Hcon). Qed.

Lemma requests_well_formed_witness :
  well_formed_request (Message "CLEAR" "vitrivr" []).
Proof.
  apply (requests_well_formed
           (run init [ConfigEmits example_config; CallAdd ["a"]; CallClear]) 0).
  - exists [ConfigEmits example_config; CallAdd ["a"]; CallClear]. reflexivity.
  - vm_compute. do 3 right. left.
Defined.

(** X13: in every reachable state [available()] called right after
    [connect()] answers what [connect()] answered. *)
Theorem connect_result_is_availability (s : CollabordinatorService) :
  reachable s → eval available (exec connect s) = eval connect s.
Proof.
  intros Hinv%reachable_invariant. destruct (_config s) as [c|] eqn:Hc.
  - unfold exec, eval at 2. by rewrite (connect_configured s c Hc).
  - unfold exec, eval at 2. rewrite (connect_unconfigured s Hc). simpl.
    unfold_service. simpl. destruct (_webSocket s) eqn:Hws; [|done].
    destruct (inv_config s Hinv) as [c Hc']; [by eauto|congruence].
Qed.

Lemma connect_result_is_availability_witness :
  eval available (exec connect init) = eval connect init.
Proof. apply connect_result_is_availability. by exists []. Defined.

Lemma available_is_Some s : eval available s = true ↔ is_Some (_webSocket s).
Proof.
  unfold available, eval, get_webSocket, mbind, M_bind, mret, M_ret. simpl.
  destruct (_webSocket s); split; first [done|by eexists|by intros [? ?]].
Qed.

Lemma connect_keeps_config s : _config (exec connect s) = _config s.
Proof.
  destruct (_config s) as [c|] eqn:Hc; unfold exec.
  - by rewrite (connect_configured s c Hc).
  - by rewrite (connect_unconfigured s Hc).
Qed.

Lemma step_config s e :
  is_Some (_config (step s e))
  ↔ is_Some (_config s) ∨ ∃ c, e = ConfigEmits c ∧ is_Some (Config_get c endpoint_key).
Proof.
  destruct e; unfold step, handle.
  - unfold on_config. destruct (Config_get c endpoint_key) as [address|] eqn:Haddr.
    + rewrite !exec_bind, exec_ret, connect_keeps_config. simpl.
      split; [|by eauto]. intros _. right. exists c. rewrite Haddr. by eauto.
    + rewrite exec_ret. split; [by eauto|]. intros [?|(c' & [= <-] & Hc')]; [done|].
      rewrite Haddr in Hc'. by destruct Hc'.
  - rewrite add_sends, send_or_report_exec. destruct (_webSocket s); naive_solver.
  - rewrite remove_sends, send_or_report_exec. destruct (_webSocket s); naive_solver.
  - rewrite clear_sends, send_or_report_exec. destruct (_webSocket s); naive_solver.
  - rewrite exec_bind, exec_ret, connect_keeps_config. naive_solver.
  - rewrite exec_bind, exec_ret. naive_solver.
  - unfold exec, when_subscribed. destruct (subscribed ws s); naive_solver.
  - unfold exec, when_subscribed. destruct (subscribed ws s); naive_solver.
  - unfold exec, when_subscribed. destruct (subscribed ws s); naive_solver.
Qed.

Lemma run_config es s :
  is_Some (_config (run s es))
  ↔ is_Some (_config s)
    ∨ ∃ c, ConfigEmits c ∈ es ∧ is_Some (Config_get c endpoint_key).
Proof.
  revert s. induction es as [|e es IH]; intros s.
  - simpl. split; [by eauto|]. intros [?|(c & Hin & _)]; [done|].
    by apply elem_of_nil in Hin.
  - change (run s (e :: es)) with (run (step s e) es). rewrite IH, step_config.
    split.
    + intros [[?|(c & -> & Hc)]|(c & Hin & Hc)]; [by left|right..].
      * exists c. split; [by left|done].
      * exists c. split; [by right|done].
    + intros [?|(c & Hin & Hc)]; [by do 2 left|].
      apply elem_of_cons in Hin as [<-|Hin]; [left; right|right]; by eauto.
Qed.

(** X14: the service is available exactly when the configuration service
    has emitted a configuration with an endpoint address; calls of
    [connect()] and of the other methods before that do not make it
    available. *)
Theorem available_iff_configured (es : list Event) :
  eval available (run init es) = true
  ↔ ∃ c, ConfigEmits c ∈ es ∧ is_Some (Config_get c endpoint_key).
Proof.
  assert (reachable (run init es)) as Hreach by (by exists es).
  pose proof (reachable_invariant _ Hreach) as Hinv.
  pose proof (reachable_connection _ Hreach) as Hcon.
  rewrite available_is_Some. trans (is_Some (_config (run init es))).
  - split; [apply (inv_config _ Hinv)|apply (cinv_configured _ Hcon)].
  - rewrite run_config. simpl. split; [|by eauto].
    intros [[? ?]|?]; done.
Qed.

Lemma available_iff_configured_witness :
  eval available (run init [CallConnect; ConfigEmits example_config; SocketError 0]) = true.
Proof.
  apply available_iff_configured. exists example_config.
  split; [right; left|by eexists].
Defined.



(** X16: a configuration without an endpoint address is dropped and changes
    nothing; a configuration with one is stored and always makes the service
    open and refer to one more socket for that address, whether or not it
    had a socket for the same address before. *)
Theorem config_emission (s : CollabordinatorService) (c : Config) :
  match Config_get c endpoint_key with
  | None => step s (ConfigEmits c) = s
  | Some address =>
      _config (step s (ConfigEmits c)) = Some c
      ∧ _webSocket (step s (ConfigEmits c)) = Some (length (sockets s))
      ∧ length (sockets (step s (ConfigEmits c))) = S (length (sockets s))
      ∧ sockets (step s (ConfigEmits c)) !! length (sockets s)
        = Some (Socket (Some address) [] false true)
  end.
Proof.
  unfold step, handle, on_config.
  destruct (Config_get c endpoint_key) as [address|] eqn:Haddr; [|done].
  rewrite !exec_bind, exec_ret. unfold exec.
  rewrite (connect_configured _ c) by done. simpl. rewrite Haddr.
  assert (length (match _webSocket s with
                  | Some old => alter stop old (sockets s)
                  | None => sockets s
                  end) = length (sockets s)) as Hlen.
  { destruct (_webSocket s); [apply length_alter|done]. }
  split_and!; [done..| |].
  - rewrite length_app, Hlen. simpl. lia.
  - rewrite lookup_app_r by lia. by rewrite Hlen, Nat.sub_diag.
Qed.

(** X17: when the completion handler of a subscribed socket runs, the fixed
    line is logged and the empty set is published; the service keeps its
    sockets and its socket reference as they are, so [available()] answers
    [true] and no new connection is opened. *)
Theorem on_close_resets_and_stays_available (s : CollabordinatorService) (ws : nat) :
  reachable s → subscribed ws s = true →
  let s' := step s (SocketClosed ws) in
  _value s' = []
  ∧ effects s' = effects s ++ [ConsoleLog closed_line; Publish []]
  ∧ _webSocket s' = _webSocket s ∧ sockets s' = sockets s
  ∧ eval available s' = true.
Proof.
  intros Hreach Hsub. cbv zeta.
  unfold step, handle, exec, when_subscribed. rewrite Hsub.
  split_and!; try done.
  - simpl. by rewrite <- app_assoc.
  - apply reachable_invariant in Hreach.
    destruct (inv_created s Hreach ws (subscribed_lt ws s Hsub)) as [cur Hcur].
    unfold_service. simpl. by rewrite Hcur.
Qed.

Lemma on_close_resets_and_stays_available_witness :
  _value (step connected_with_a (SocketClosed 0)) = []
  ∧ effects (step connected_with_a (SocketClosed 0))
    = effects connected_with_a ++ [ConsoleLog closed_line; Publish []]
  ∧ _webSocket (step connected_with_a (SocketClosed 0)) = _webSocket connected_with_a
  ∧ sockets (step connected_with_a (SocketClosed 0)) = sockets connected_with_a
  ∧ eval available (step connected_with_a (SocketClosed 0)) = true.
Proof.
  apply (on_close_resets_and_stays_available connected_with_a 0).
  - exists [ConfigEmits example_config; SocketMessage 0 (Message "ADD" "vitrivr" ["a"])].
    reflexivity.
  - vm_compute. reflexivity.
Defined.

Lemma unconfigured_run es effs :
  (∀ c, ConfigEmits c ∈ es → Config_get c endpoint_key = None) →
  run (Service [] None None [] effs) es
  = Service [] None None []
      (effs ++ replicate (length (filter (λ e, is_mutation_call e = true) es))
                         (ConsoleLog unavailable_line)).
Proof.
  revert effs. induction es as [|e es IH]; intros effs Hes.
  - simpl. by rewrite app_nil_r.
  - change (run ?s (e :: es)) with (run (step s e) es).
    assert (∀ c, ConfigEmits c ∈ es → Config_get c endpoint_key = None) as Hes'.
    { intros c Hc. apply Hes. by right. }
    destruct e; rewrite ?filter_cons_True, ?filter_cons_False by done.
    + unfold step, handle, on_config. rewrite (Hes c) by (by left). by apply IH.
    + change (step _ _) with (Service [] None None [] (effs ++ [ConsoleLog unavailable_line])).
      rewrite IH by done. simpl. by rewrite <- app_assoc.
    + change (step _ _) with (Service [] None None [] (effs ++ [ConsoleLog unavailable_line])).
      rewrite IH by done. simpl. by rewrite <- app_assoc.
    + change (step _ _) with (Service [] None None [] (effs ++ [ConsoleLog unavailable_line])).
      rewrite IH by done. simpl. by rewrite <- app_assoc.
    + by apply IH.
    + by apply IH.
    + by apply IH.
    + by apply IH.
    + by apply IH.
Qed.

(** X18: as long as no configuration with an endpoint address arrived the
    service is inert: the set stays empty, no socket is created, nothing is
    published, and the only trace is one console line per call of [add],
    [remove] or [clear]. *)
Theorem unconfigured_service_is_inert (es : list Event) :
  (∀ c, ConfigEmits c ∈ es → Config_get c endpoint_key = None) →
  run init es
  = Service [] None None []
      (replicate (length (filter (λ e, is_mutation_call e = true) es))
                 (ConsoleLog unavailable_line)).
Proof. intros Hes. unfold init. by rewrite unconfigured_run. Qed.

Lemma unconfigured_service_is_inert_witness :
  run init [CallConnect; CallAdd ["a"]; ConfigEmits ∅; SocketError 0; CallClear]
  = Service [] None None [] (replicate 2 (ConsoleLog unavailable_line)).
Proof.
  apply (unconfigured_service_is_inert
           [CallConnect; CallAdd ["a"]; ConfigEmits ∅; SocketError 0; CallClear]).
  intros c Hc. rewrite !elem_of_cons in Hc.
  destruct Hc as [?|[?|[Hc|[?|[?|Hc]]]]]; try discriminate.
  - injection Hc as ->. reflexivity.
  - by apply elem_of_nil in Hc.
Defined.

(** ** The refinement component *)

Section RefinementFacts.
Variable Number : Type.
Implicit Types (c : RefinementComponent Number) (e : ViewEvent Number).

Lemma onQueryStartEnd_observables msg c c' :
  onQueryStartEnd msg c = Returns c' →
  results c' = results c ∧ subscriptions c' = subscriptions c
  ∧ _queryServiceSubscription c' = _queryServiceSubscription c
  ∧ calls c' = calls c ++ [MarkForCheck]
  ∧ ((msg = "STARTED" ∧ ∃ container, results c = Some container
        ∧ features c' = FeaturesOf container ∧ mediatypes c' = MediatypesOf container)
     ∨ (msg = "CLEAR" ∧ features c' = EmptyObservable ∧ mediatypes c' = EmptyObservable)
     ∨ (msg ≠ "STARTED" ∧ msg ≠ "CLEAR"
        ∧ features c' = features c ∧ mediatypes c' = mediatypes c)).
Proof.
  unfold onQueryStartEnd.
  destruct (String.eqb_spec msg "STARTED") as [->|Hs].
  - destruct (results c) as [container|] eqn:Hr; [|done]. intros [= <-]. simpl.
    split_and!; try done. left. by eauto.
  - destruct (String.eqb_spec msg "CLEAR") as [->|Hc]; intros [= <-]; simpl.
    + split_and!; try done. right. by left.
    + split_and!; try done. by do 2 right.
Qed.

Lemma queryChanged_cases n msg c :
  queryChanged n msg c = Returns c ∨ queryChanged n msg c = onQueryStartEnd msg c.
Proof.
  unfold queryChanged. destruct (subscriptions c !! n) as [[]|]; [|by left..].
  destruct (_ >? _)%Z; [by right|by left].
Qed.

Lemma view_step_agree c e : observables_agree c → observables_agree (view_step c e).
Proof.
  assert (∀ msg, observables_agree c →
                 observables_agree (settle c (onQueryStartEnd msg c))) as Hhandler.
  { intros msg Hc. destruct (onQueryStartEnd msg c) as [c'|] eqn:E; [|done].
    apply onQueryStartEnd_observables in E
      as (_ & _ & _ & _ & [(_ & r & _ & ? & ?)|[(_ & ? & ?)|(_ & _ & Hf & Hm)]]).
    - right. by eauto.
    - by left.
    - simpl. unfold observables_agree. by rewrite Hf, Hm. }
  intros Hc. destruct e; simpl.
  - done.
  - done.
  - unfold ngOnDestroy. by destruct (_queryServiceSubscription c).
  - unfold deliver_change. specialize (Hhandler msg Hc).
    destruct (queryChanged_cases n msg c) as [-> | ->]; [done|].
    by destruct (onQueryStartEnd msg c).
  - by apply Hhandler.
  - unfold onFilterChanged. by destruct (results c).
  - unfold onValueChanged. by destruct (results c).
Qed.

(** X19: the subscription taken in [ngOnInit] passes only [STARTED] and
    [CLEAR] on: every other message of the query service leaves the
    component as it is and triggers no change detection. *)
Theorem other_changes_are_filtered (n : nat) (msg : string) c :
  msg ∉ ["STARTED"; "CLEAR"] → queryChanged n msg c = Returns c.
Proof.
  intros Hmsg. unfold queryChanged. rewrite indexOf_absent by done.
  by destruct (subscriptions c !! n) as [[]|].
Qed.

(** X20: whatever happens to the component, its two getters agree: both
    observables are empty or both belong to the same results container. *)
Theorem observables_always_agree (es : list (ViewEvent Number)) :
  observables_agree (view_run created es).
Proof.
  assert (observables_agree (@created Number)) as Hinit by (by left).
  revert Hinit. generalize (@created Number).
  induction es as [|e es IH]; intros c Hc; [done|].
  apply IH. by apply view_step_agree.
Qed.

(** X21: [onQueryStartEnd] throws exactly when it is told [STARTED] while
    the query service has no results; in every other case it returns. *)
Theorem onQueryStartEnd_throws (msg : string) c :
  onQueryStartEnd msg c = TypeError ↔ msg = "STARTED" ∧ results c = None.
Proof.
  unfold onQueryStartEnd. destruct (String.eqb_spec msg "STARTED") as [->|Hs].
  - destruct (results c); naive_solver.
  - destruct (String.eqb msg "CLEAR"); naive_solver.
Qed.

Lemma view_step_without_results c e :
  (∀ container, e ≠ ResultsBecome (Some container)) →
  results c = None → features c = EmptyObservable → mediatypes c = EmptyObservable →
  Forall (λ eff, eff = MarkForCheck) (calls c) →
  let c' := view_step c e in
  results c' = None ∧ features c' = EmptyObservable ∧ mediatypes c' = EmptyObservable
  ∧ Forall (λ eff, eff = MarkForCheck) (calls c').
Proof.
  intros He Hr Hf Hm Hcalls.
  assert (∀ msg, let c' := settle c (onQueryStartEnd msg c) in
                 results c' = None ∧ features c' = EmptyObservable
                 ∧ mediatypes c' = EmptyObservable
                 ∧ Forall (λ eff, eff = MarkForCheck) (calls c')) as Hhandler.
  { intros msg. destruct (onQueryStartEnd msg c) as [c'|] eqn:E; [|done].
    apply onQueryStartEnd_observables in E
      as (Hr' & _ & _ & Hcalls' & [(_ & r & ? & _)|[(_ & ? & ?)|(_ & _ & Hf' & Hm')]]).
    - congruence.
    - simpl. rewrite Hr', Hcalls'. split_and!; try done.
      apply Forall_app. split; [done|]. by repeat constructor.
    - simpl. rewrite Hr', Hcalls', Hf', Hm'. split_and!; try done.
      apply Forall_app. split; [done|]. by repeat constructor. }
  destruct e; cbv zeta; simpl.
  - destruct container as [container|]; [by destruct (He container)|done].
  - done.
  - unfold ngOnDestroy. by destruct (_queryServiceSubscription c).
  - unfold deliver_change. specialize (Hhandler msg).
    destruct (queryChanged_cases n msg c) as [-> | ->]; [done|].
    by destruct (onQueryStartEnd msg c).
  - by apply Hhandler.
  - unfold onFilterChanged. by rewrite Hr.
  - unfold onValueChanged. by rewrite Hr.
Qed.

(** X22: as long as the query service has no results the component shows
    nothing and calls nothing but the change detection: both observables
    stay empty, and no media type is toggled, no weight is set and no
    re-ranking is asked for, whatever the user does. *)
Theorem without_results_nothing_is_shown (es : list (ViewEvent Number)) :
  (∀ container, ResultsBecome (Some container) ∉ es) →
  features (view_run created es) = EmptyObservable
  ∧ mediatypes (view_run created es) = EmptyObservable
  ∧ Forall (λ eff, eff = MarkForCheck) (calls (view_run created es)).
Proof.
  intros Hes.
  assert (∀ c, results c = None → features c = EmptyObservable →
               mediatypes c = EmptyObservable →
               Forall (λ eff, eff = MarkForCheck) (calls c) →
               features (view_run c es) = EmptyObservable
               ∧ mediatypes (view_run c es) = EmptyObservable
               ∧ Forall (λ eff, eff = MarkForCheck) (calls (view_run c es))) as Hrun.
  { induction es as [|e es IH]; intros c Hr Hf Hm Hcalls; [done|].
    destruct (view_step_without_results c e) as (? & ? & ? & ?); try done.
    { intros container ->. apply (Hes container). by left. }
    apply IH; try done. intros container Hin. apply (Hes container). by right. }
  apply Hrun; first [done|constructor].
Qed.

(** X23: [ngOnDestroy] ends the subscription taken by the [ngOnInit] before
    it: the component no longer reacts to any message on that subscription,
    its observables are as they were, and a second [ngOnDestroy] throws. *)
Theorem destroyed_component_is_deaf (msg : string) c :
  ∃ c', ngOnDestroy (ngOnInit c) = Returns c'
        ∧ queryChanged (length (subscriptions c)) msg c' = Returns c'
        ∧ features c' = features c ∧ mediatypes c' = mediatypes c
        ∧ calls c' = calls c
        ∧ ngOnDestroy c' = TypeError.
Proof.
  eexists. split; [reflexivity|]. simpl. split_and!; try done.
  unfold queryChanged. simpl.
  rewrite list_lookup_insert_eq by (rewrite length_app; simpl; lia). done.
Qed.

End RefinementFacts.

Lemma other_changes_are_filtered_witness :
  queryChanged 0 "ENDED" (ngOnInit (@created Z)) = Returns (ngOnInit created).
Proof.
  apply other_changes_are_filtered.
  rewrite !not_elem_of_cons. split_and!; try discriminate. apply not_elem_of_nil.
Defined.

Lemma without_results_nothing_is_shown_witness :
  features (view_run (@created Z)
              [Init; QueryChanged 0 "STARTED"; ValueChanged 3 7%Z;
               FilterChanged "VIDEO" true; QueryChanged 0 "CLEAR"]) = EmptyObservable
  ∧ mediatypes (view_run (@created Z)
                  [Init; QueryChanged 0 "STARTED"; ValueChanged 3 7%Z;
                   FilterChanged "VIDEO" true; QueryChanged 0 "CLEAR"]) = EmptyObservable
  ∧ Forall (λ eff, eff = MarkForCheck)
           (calls (view_run (@created Z)
                     [Init; QueryChanged 0 "STARTED"; ValueChanged 3 7%Z;
                      FilterChanged "VIDEO" true; QueryChanged 0 "CLEAR"])).
Proof.
  apply without_results_nothing_is_shown.
  intros container Hin. rewrite !elem_of_cons in Hin.
  destruct Hin as [?|[?|[?|[?|[?|Hin]]]]]; try discriminate.
  by apply elem_of_nil in Hin.
Defined.

Lemma onQueryStartEnd_throws_witness :
  onQueryStartEnd "STARTED" (ngOnInit (@created Z)) = TypeError.
Proof. apply onQueryStartEnd_throws. split; reflexivity. Defined.
